(** * screenrecord: the encoder loop of [cmds/screenrecord/screenrecord.cpp]

    A shallow embedding of [signalCatcher], [runEncoder] and the tail of
    [recordScreen], followed by the command line ([main],
    [parseWidthHeight]), the set-up part of [recordScreen] and the signal
    handlers.  The two [MediaCodec] encoders, the [MediaMuxer], the
    [AudioRecord] and the monotonic clock are collaborators of the program:
    every value they hand back (dequeue results, status codes, track indices,
    clock readings) is an input of the model, and every call the program
    makes on them is appended, in program order, to a call log.  The
    properties below are stated on that log and on the local variables of
    [runEncoder]. *)

From Stdlib Require Import ZArith List Bool Lia Sorted Ascii.
Import ListNotations.
Local Open Scope Z_scope.

(** ** Integer types of the source *)

Definition INT64_MAX : Z := 9223372036854775807.
Definition INT64_MODULUS : Z := 18446744073709551616.
Definition UINT32_MODULUS : Z := 4294967296.

(** [++n] on a [uint32_t]. *)
Definition uint32_incr (n : Z) : Z := (n + 1) mod UINT32_MODULUS.

(** [a + b] on [int64_t] as the compiled code computes it: a sum that leaves
    the range wraps around. *)
Definition int64_add (a b : Z) : Z :=
  (a + b + INT64_MAX + 1) mod INT64_MODULUS - INT64_MAX - 1.

Arguments int64_add : simpl never.

(** ** Values of the framework headers

    [screenrecord.cpp] uses constants and one inline function that are
    declared in framework headers, not in the file itself.  They are taken
    as parameters. *)
Record Framework : Type := mkFramework {
  BUFFER_FLAG_CODECCONFIG : Z;       (* MediaCodec::BUFFER_FLAG_CODECCONFIG *)
  BUFFER_FLAG_EOS : Z;               (* MediaCodec::BUFFER_FLAG_EOS *)
  INVALID_OPERATION : Z;             (* utils/Errors.h *)
  seconds_to_nanoseconds : Z -> Z    (* utils/Timers.h *)
}.

(** The values these names have in the Android framework. *)
Definition android : Framework :=
  {| BUFFER_FLAG_CODECCONFIG := 2;
     BUFFER_FLAG_EOS := 4;
     INVALID_OPERATION := -38;
     seconds_to_nanoseconds := fun secs => secs * 1000000000 |}.

(** ** Results handed back by the collaborators *)

(** A [status_t] returned by a call that either succeeds or fails. *)
Inductive status_t : Type :=
| NO_ERROR
| Error (err : Z).

(** What [dequeueOutputBuffer] returns: the tag the [switch (err)] of the
    loop dispatches on, with the out-parameters when a buffer came back. *)
Inductive DequeueResult : Type :=
| GotBuffer (bufIndex offset size ptsUsec flags : Z)   (* NO_ERROR *)
| TryAgainLater                                        (* -EAGAIN *)
| FormatChanged                                        (* INFO_FORMAT_CHANGED *)
| OutputBuffersChanged                                 (* INFO_OUTPUT_BUFFERS_CHANGED *)
| InvalidOperation                                     (* INVALID_OPERATION *)
| Weird (err : Z).                                     (* default *)

Inductive Stream : Type := Video | Audio.

(** ** Calls made on the collaborators *)
Inductive Event : Type :=
| SignalCaught                                    (* signalCatcher ran *)
| GetOutputBuffers (s : Stream)
| GetInputBuffers
| RecorderStart
| RecorderStop
| QueueInputBuffer (bufIndex size timeUs : Z)
| AddTrack (s : Stream)                           (* muxer->addTrack *)
| MuxerStart                                      (* muxer->start *)
| WriteSampleData (s : Stream) (bufIndex trackIdx ptsUsec flags : Z)
| ReleaseOutputBuffer (s : Stream) (bufIndex : Z)
| DestroyDisplay
| EncoderStop (s : Stream)
| EncoderRelease (s : Stream)
| MuxerStop.

(** ** Program state: the locals of [runEncoder], the global
    [gStopRequested], and the call log. *)
Record State : Type := mkState {
  videoTrackIdx : Z;        (* ssize_t *)
  audioTrackIdx : Z;        (* ssize_t *)
  debugNumFrames : Z;       (* uint32_t *)
  tracksAdded : Z;          (* uint32_t *)
  lastAudioPtsUs : Z;       (* int64_t *)
  gStopRequested : bool;
  calls : list Event
}.

Definition set_videoTrackIdx (v : Z) (s : State) : State :=
  mkState v (audioTrackIdx s) (debugNumFrames s) (tracksAdded s)
          (lastAudioPtsUs s) (gStopRequested s) (calls s).
Definition set_audioTrackIdx (v : Z) (s : State) : State :=
  mkState (videoTrackIdx s) v (debugNumFrames s) (tracksAdded s)
          (lastAudioPtsUs s) (gStopRequested s) (calls s).
Definition set_debugNumFrames (v : Z) (s : State) : State :=
  mkState (videoTrackIdx s) (audioTrackIdx s) v (tracksAdded s)
          (lastAudioPtsUs s) (gStopRequested s) (calls s).
Definition set_tracksAdded (v : Z) (s : State) : State :=
  mkState (videoTrackIdx s) (audioTrackIdx s) (debugNumFrames s) v
          (lastAudioPtsUs s) (gStopRequested s) (calls s).
Definition set_lastAudioPtsUs (v : Z) (s : State) : State :=
  mkState (videoTrackIdx s) (audioTrackIdx s) (debugNumFrames s)
          (tracksAdded s) v (gStopRequested s) (calls s).
Definition set_gStopRequested (v : bool) (s : State) : State :=
  mkState (videoTrackIdx s) (audioTrackIdx s) (debugNumFrames s)
          (tracksAdded s) (lastAudioPtsUs s) v (calls s).
Definition log_call (ev : Event) (s : State) : State :=
  mkState (videoTrackIdx s) (audioTrackIdx s) (debugNumFrames s)
          (tracksAdded s) (lastAudioPtsUs s) (gStopRequested s)
          (calls s ++ [ev]).

(** ** The monad of the loop body

    A computation runs on the state and either yields a value or leaves
    [runEncoder] early.  The state reached is kept in both cases, so the call
    log of an aborted run can still be inspected. *)
Inductive Exit : Type :=
| Returned (err : Z)     (* [return err;] with a status other than NO_ERROR *)
| CheckFailed.           (* a [CHECK(...)] failed: the process is aborted *)

Inductive Res (A : Type) : Type :=
| Val (a : A)
| Halt (x : Exit).
Arguments Val {A} a.
Arguments Halt {A} x.

Definition M (A : Type) : Type := State -> State * Res A.

Definition ret {A} (a : A) : M A := fun s => (s, Val a).
Definition bind {A B} (m : M A) (f : A -> M B) : M B :=
  fun s => match m s with
           | (s', Val a) => f a s'
           | (s', Halt x) => (s', Halt x)
           end.
Definition halt {A} (x : Exit) : M A := fun s => (s, Halt x).
Definition get : M State := fun s => (s, Val s).
Definition modify (f : State -> State) : M unit := fun s => (f s, Val tt).
Definition call (ev : Event) : M unit := modify (log_call ev).

Notation "x <- m ;; k" := (bind m (fun x => k))
  (at level 61, m at next level, right associativity).
Notation "m ;; k" := (bind m (fun _ => k))
  (at level 61, right associativity).

(** [CHECK(b)]. *)
Definition CHECK (b : bool) : M unit :=
  if b then ret tt else halt CheckFailed.

(** [if (err != NO_ERROR) { ...; return err; }]. *)
Definition return_on_error (r : status_t) : M unit :=
  match r with
  | NO_ERROR => ret tt
  | Error err => halt (Returned err)
  end.

(** ** Inputs of one loop iteration *)

(** What the collaborators answer while one encoder's output is handled.
    A field is read only on the path that makes the corresponding call. *)
Record OutputEnv : Type := mkOutputEnv {
  dequeued : DequeueResult;     (* dequeueOutputBuffer *)
  clockNs : Z;                  (* systemTime(SYSTEM_TIME_MONOTONIC) *)
  addedTrack : Z;               (* muxer->addTrack *)
  startResult : status_t;       (* muxer->start *)
  writeResult : status_t;       (* muxer->writeSampleData *)
  releaseResult : status_t;     (* releaseOutputBuffer *)
  buffersResult : status_t      (* getOutputBuffers *)
}.

(** [dequeueInputBuffer] on the audio encoder: when it succeeds, the buffer
    index, the byte count [audioRecorder->read] returned, and the clock. *)
Record AudioInput : Type := mkAudioInput {
  inBufIndex : Z;
  audioSize : Z;
  inClockNs : Z
}.

(** One pass through the [while] loop.  The signal handler runs
    asynchronously; the model lets a signal be delivered at three points of
    an iteration: before the loop condition is evaluated, after the deadline
    test (before the video output is handled), and between the handling of
    the video and of the audio output. *)
Record IterEnv : Type := mkIterEnv {
  sigHead : bool;
  headClockNs : Z;                  (* systemTime(CLOCK_MONOTONIC) of the deadline test *)
  audioIn : option AudioInput;
  sigBody : bool;
  videoOut : OutputEnv;
  sigBetween : bool;
  audioOut : OutputEnv
}.

(** What happens before the loop is entered. *)
Record SetupEnv : Type := mkSetupEnv {
  startWhenNsec : Z;                (* systemTime(CLOCK_MONOTONIC) *)
  videoBuffers : status_t;          (* videoEncoder->getOutputBuffers *)
  audioOutputBuffers : status_t;    (* audioEncoder->getOutputBuffers *)
  audioInputBuffers : status_t;     (* audioEncoder->getInputBuffers *)
  recorderInitCheck : status_t      (* audioRecorder->initCheck *)
}.

(** ** signalCatcher

    The handler raises the flag and restores the previous handlers; a later
    signal is therefore not seen by the program and is not an input here. *)
Definition signalCatcher : M unit :=
  call SignalCaught ;; modify (set_gStopRequested true).

Definition deliver (sig : bool) : M unit :=
  if sig then signalCatcher else ret tt.

(** The "magical AAC encoded frame time" added to the last audio timestamp. *)
Definition kAacFrameTimeUs : Z := 23219.

(** The three statements that reconcile an audio timestamp:
<<
    if (ptsUsec < 0) ptsUsec = 0;
    if (ptsUsec < lastAudioPtsUs)
        ptsUsec = lastAudioPtsUs + 23219;
    lastAudioPtsUs = ptsUsec;
>>
    The addition is on [int64_t]: nothing tests its range, and the value
    that is then written is the wrapped sum. *)
Definition reconcileAudioPts (ptsUsec : Z) : M Z :=
  let ptsUsec := if ptsUsec <? 0 then 0 else ptsUsec in
  s <- get ;;
  let ptsUsec := if ptsUsec <? lastAudioPtsUs s
                 then int64_add (lastAudioPtsUs s) kAacFrameTimeUs
                 else ptsUsec in
  modify (set_lastAudioPtsUs ptsUsec) ;;
  ret ptsUsec.

Section RunEncoder.

Variable fw : Framework.
Variable gRecordAudio : bool.
Variable gTimeLimitSec : Z.

(** [(flags & mask) != 0]. *)
Definition is_set (flags mask : Z) : bool := negb (Z.land flags mask =? 0).

(** [if (++tracksAdded >= needed) { err = muxer->start(); ... }] *)
Definition countTrackAndStart (needed : Z) (e : OutputEnv) : M unit :=
  modify (fun s => set_tracksAdded (uint32_incr (tracksAdded s)) s) ;;
  s <- get ;;
  if needed <=? tracksAdded s
  then call MuxerStart ;; return_on_error (startResult e)
  else ret tt.

(** The [switch] on the result of [videoEncoder->dequeueOutputBuffer]. *)
Definition videoOutput (e : OutputEnv) : M unit :=
  match dequeued e with
  | GotBuffer bufIndex offset size ptsUsec flags =>
      let size := if is_set flags (BUFFER_FLAG_CODECCONFIG fw) then 0 else size in
      (if negb (size =? 0) then
         s <- get ;;
         CHECK (negb (videoTrackIdx s =? -1)) ;;
         let ptsUsec := if ptsUsec =? 0 then Z.quot (clockNs e) 1000 else ptsUsec in
         call (WriteSampleData Video bufIndex (videoTrackIdx s) ptsUsec flags) ;;
         return_on_error (writeResult e) ;;
         modify (fun s => set_debugNumFrames (uint32_incr (debugNumFrames s)) s)
       else ret tt) ;;
      call (ReleaseOutputBuffer Video bufIndex) ;;
      return_on_error (releaseResult e) ;;
      if is_set flags (BUFFER_FLAG_EOS fw)
      then modify (set_gStopRequested false)
      else ret tt
  | TryAgainLater => ret tt
  | FormatChanged =>
      call (AddTrack Video) ;;
      modify (set_videoTrackIdx (addedTrack e)) ;;
      countTrackAndStart (if gRecordAudio then 2 else 1) e
  | OutputBuffersChanged =>
      call (GetOutputBuffers Video) ;;
      return_on_error (buffersResult e)
  | InvalidOperation => halt (Returned (INVALID_OPERATION fw))
  | Weird err => halt (Returned err)
  end.

(** The [switch] on the result of [audioEncoder->dequeueOutputBuffer]. *)
Definition audioOutput (e : OutputEnv) : M unit :=
  match dequeued e with
  | GotBuffer bufIndex offset size ptsUsec flags =>
      let size := if is_set flags (BUFFER_FLAG_CODECCONFIG fw) then 0 else size in
      (if negb (size =? 0) then
         s <- get ;;
         CHECK (negb (audioTrackIdx s =? -1)) ;;
         ptsUsec <- reconcileAudioPts ptsUsec ;;
         call (WriteSampleData Audio bufIndex (audioTrackIdx s) ptsUsec flags) ;;
         return_on_error (writeResult e)
       else ret tt) ;;
      call (ReleaseOutputBuffer Audio bufIndex) ;;
      return_on_error (releaseResult e) ;;
      if is_set flags (BUFFER_FLAG_EOS fw)
      then modify (set_gStopRequested false)
      else ret tt
  | TryAgainLater => ret tt
  | FormatChanged =>
      call (AddTrack Audio) ;;
      modify (set_audioTrackIdx (addedTrack e)) ;;
      countTrackAndStart 2 e
  | OutputBuffersChanged =>
      call (GetOutputBuffers Audio) ;;
      return_on_error (buffersResult e)
  | InvalidOperation => halt (Returned (INVALID_OPERATION fw))
  | Weird err => halt (Returned err)
  end.

(** "first lets send some audio off to the audio encoder if enabled": the
    status of [queueInputBuffer] is overwritten before it is read. *)
Definition audioInput (i : option AudioInput) : M unit :=
  match i with
  | Some a => call (QueueInputBuffer (inBufIndex a) (audioSize a)
                                     (Z.quot (inClockNs a) 1000))
  | None => ret tt
  end.

(** The body of the loop after the deadline test. *)
Definition loopBody (e : IterEnv) : M unit :=
  (if gRecordAudio then audioInput (audioIn e) else ret tt) ;;
  deliver (sigBody e) ;;
  videoOutput (videoOut e) ;;
  deliver (sigBetween e) ;;
  if gRecordAudio then audioOutput (audioOut e) else ret tt.

Inductive LoopStep : Type :=
| Break       (* the loop is left: condition false, or [break] *)
| Next.       (* the body ran to its end *)

(** One evaluation of [while (!gStopRequested)] with the deadline test and
    the body. *)
Definition loopIteration (endWhenNsec : Z) (e : IterEnv) : M LoopStep :=
  deliver (sigHead e) ;;
  s <- get ;;
  if gStopRequested s then ret Break
  else if endWhenNsec <? headClockNs e then ret Break
  else loopBody e ;; ret Next.

(** How a run over a finite list of iteration inputs ends. *)
Inductive Outcome : Type :=
| Recording               (* inputs used up, the loop is still running *)
| Completed               (* the loop was left, [return NO_ERROR] *)
| Aborted (x : Exit).

Fixpoint whileLoop (endWhenNsec : Z) (envs : list IterEnv) (s : State)
  : State * Res LoopStep :=
  match envs with
  | [] => (s, Val Next)
  | e :: envs' =>
      match loopIteration endWhenNsec e s with
      | (s', Val Next) => whileLoop endWhenNsec envs' s'
      | r => r
      end
  end.

(** The locals as [runEncoder] declares them. *)
Definition initialState (stop : bool) : State :=
  {| videoTrackIdx := -1; audioTrackIdx := -1; debugNumFrames := 0;
     tracksAdded := 0; lastAudioPtsUs := 0; gStopRequested := stop;
     calls := [] |}.

(** Everything [runEncoder] does before the loop. *)
Definition setup (se : SetupEnv) : M unit :=
  call (GetOutputBuffers Video) ;;
  return_on_error (videoBuffers se) ;;
  (if gRecordAudio then
     call (GetOutputBuffers Audio) ;;
     return_on_error (audioOutputBuffers se) ;;
     call GetInputBuffers ;;
     return_on_error (audioInputBuffers se) ;;
     return_on_error (recorderInitCheck se) ;;
     call RecorderStart
   else ret tt) ;;
  modify (set_gStopRequested false).

Definition endWhen (se : SetupEnv) : Z :=
  startWhenNsec se + seconds_to_nanoseconds fw gTimeLimitSec.

(** [runEncoder], on the inputs of a setup and of finitely many loop
    iterations.  [stop] is the value [gStopRequested] has on entry. *)
Definition runEncoder (stop : bool) (se : SetupEnv) (envs : list IterEnv)
  : State * Outcome :=
  match setup se (initialState stop) with
  | (s, Halt x) => (s, Aborted x)
  | (s, Val _) =>
      match whileLoop (endWhen se) envs s with
      | (s', Halt x) => (s', Aborted x)
      | (s', Val Next) => (s', Recording)
      | (s', Val Break) =>
          ((if gRecordAudio then log_call RecorderStop s' else s'), Completed)
      end
  end.

(** The part of [recordScreen] that follows the call of [runEncoder]. *)
Definition recordScreenAfter (r : State * Outcome) : list Event :=
  let (s, o) := r in
  match o with
  | Recording => calls s
  | Aborted CheckFailed => calls s
  | Aborted (Returned _) =>
      calls s ++ [EncoderRelease Video]
              ++ (if gRecordAudio then [EncoderRelease Audio] else [])
  | Completed =>
      calls s ++ [DestroyDisplay; EncoderStop Video]
              ++ (if gRecordAudio then [EncoderStop Audio] else [])
              ++ [MuxerStop; EncoderRelease Video]
              ++ (if gRecordAudio then [EncoderRelease Audio] else [])
  end.

End RunEncoder.

(** ** Sample inputs *)

(** An encoder output step on which every collaborator call succeeds. *)
Definition answering (d : DequeueResult) (clock track : Z) : OutputEnv :=
  {| dequeued := d; clockNs := clock; addedTrack := track;
     startResult := NO_ERROR; writeResult := NO_ERROR;
     releaseResult := NO_ERROR; buffersResult := NO_ERROR |}.

(** The encoder has nothing yet. *)
Definition idle : OutputEnv := answering TryAgainLater 0 0.

(** An iteration without signal, at clock reading [now]. *)
Definition iteration (now : Z) (v a : OutputEnv) : IterEnv :=
  {| sigHead := false; headClockNs := now; audioIn := None; sigBody := false;
     videoOut := v; sigBetween := false; audioOut := a |}.

(** A setup that succeeds, with the clock reading [start]. *)
Definition setupAt (start : Z) : SetupEnv :=
  {| startWhenNsec := start; videoBuffers := NO_ERROR;
     audioOutputBuffers := NO_ERROR; audioInputBuffers := NO_ERROR;
     recorderInitCheck := NO_ERROR |}.

(** ** Readings of the call log *)

(** The event is a [muxer->writeSampleData]. *)
Definition is_write (ev : Event) : bool :=
  match ev with WriteSampleData _ _ _ _ _ => true | _ => false end.

(** Timestamps of the audio samples handed to the muxer, in order. *)
Fixpoint audioPts (l : list Event) : list Z :=
  match l with
  | [] => []
  | WriteSampleData Audio _ _ pts _ :: l' => pts :: audioPts l'
  | _ :: l' => audioPts l'
  end.

(** Number of [muxer->start] calls. *)
Definition count_starts (l : list Event) : nat :=
  length (filter (fun ev => match ev with MuxerStart => true | _ => false end) l).

(** Number of [muxer->addTrack] calls. *)
Definition count_tracks (l : list Event) : nat :=
  length (filter (fun ev => match ev with AddTrack _ => true | _ => false end) l).

(** Number of format changes taken from the encoder of stream [s]: each
    one calls [addTrack] for that stream. *)
Definition count_format_changes (s : Stream) (l : list Event) : nat :=
  length (filter (fun ev => match ev, s with
                            | AddTrack Video, Video => true
                            | AddTrack Audio, Audio => true
                            | _, _ => false
                            end) l).

(** Calls that touch neither the muxer nor an output buffer. *)
Definition bookkeeping (ev : Event) : bool :=
  match ev with
  | SignalCaught | GetOutputBuffers _ | GetInputBuffers | RecorderStart
  | RecorderStop | QueueInputBuffer _ _ _ => true
  | _ => false
  end.

(** A dequeued buffer that carries the end-of-stream flag. *)
Definition saw_eos (fw : Framework) (e : OutputEnv) : bool :=
  match dequeued e with
  | GotBuffer _ _ _ _ flags => is_set flags (BUFFER_FLAG_EOS fw)
  | _ => false
  end.

(** A dequeued buffer the loop forwards: not codec-config, size not zero. *)
Definition is_data (fw : Framework) (e : OutputEnv) : bool :=
  match dequeued e with
  | GotBuffer _ _ size _ flags =>
      negb (is_set flags (BUFFER_FLAG_CODECCONFIG fw)) && negb (size =? 0)
  | _ => false
  end.

(** The audio rule in the words of the specification: clamp a negative
    timestamp to zero, then replace a timestamp below the last emitted one by
    last-emitted plus the fixed frame duration. *)
Definition reconcile_spec (lastEmitted reported : Z) : Z :=
  let clamped := Z.max 0 reported in
  if clamped <? lastEmitted then lastEmitted + 23219 else clamped.

(** The rule applied along a sequence of reported timestamps. *)
Fixpoint reconcile_all_spec (lastEmitted : Z) (reported : list Z) : list Z :=
  match reported with
  | [] => []
  | r :: rest =>
      let out := reconcile_spec lastEmitted r in
      out :: reconcile_all_spec out rest
  end.

(** ** Invariants of the loop *)

(** Running [m] keeps [P], whether [m] yields a value or leaves early. *)
Definition preserves {A} (P : State -> Prop) (m : M A) : Prop :=
  forall s, P s -> P (fst (m s)).

(** What a state predicate needs to survive a whole run. *)
Record LoopInvariant (fw : Framework) (gRecordAudio : bool)
       (P : State -> Prop) : Prop := {
  inv_log : forall ev s, bookkeeping ev = true -> P s -> P (log_call ev s);
  inv_flag : forall b s, P s -> P (set_gStopRequested b s);
  inv_video : forall e, preserves P (videoOutput fw gRecordAudio e);
  inv_audio : gRecordAudio = true -> forall e, preserves P (audioOutput fw e)
}.

(** ** Vocabulary of the properties *)

(** The event is not a [writeSampleData] of a buffer flagged codec-config. *)
Definition config_free (fw : Framework) (ev : Event) : Prop :=
  match ev with
  | WriteSampleData _ _ _ _ flags =>
      is_set flags (BUFFER_FLAG_CODECCONFIG fw) = false
  | _ => True
  end.

(** The audio timestamps written so far are in non-decreasing order and none
    exceeds [lastAudioPtsUs]. *)
Definition audio_monotone (s : State) : Prop :=
  StronglySorted Z.le (audioPts (calls s)) /\
  Forall (fun p => p <= lastAudioPtsUs s) (audioPts (calls s)).

(** The timestamp the three statements of [reconcileAudioPts] leave in
    [ptsUsec] when [lastAudioPtsUs] is [last]. *)
Definition reconciled (last ptsUsec : Z) : Z :=
  let ptsUsec := if ptsUsec <? 0 then 0 else ptsUsec in
  if ptsUsec <? last then int64_add last kAacFrameTimeUs else ptsUsec.

(** The audio timestamps written so far are in non-decreasing order, none is
    negative, and [lastAudioPtsUs], the highest of them, is at most
    [ceiling]. *)
Definition audio_within (ceiling : Z) (s : State) : Prop :=
  audio_monotone s /\
  Forall (fun p => 0 <= p) (audioPts (calls s)) /\
  0 <= lastAudioPtsUs s <= ceiling.

(** The timestamps fit [int64_t] from above. *)
Definition in_int64_range (l : list Z) : Prop :=
  Forall (fun p => p <= INT64_MAX) l.

(** The output of an encoder is handled without an error of a collaborator,
    whatever the flags of the buffer: the encoder hands out a buffer or has
    none for now, the track of a data buffer is registered, and the muxer and
    the encoder accept the write and the release. *)
Definition handled (fw : Framework) (trackIdx : Z) (e : OutputEnv) : Prop :=
  match dequeued e with
  | GotBuffer _ _ _ _ _ =>
      (is_data fw e = true -> trackIdx <> -1 /\ writeResult e = NO_ERROR) /\
      releaseResult e = NO_ERROR
  | TryAgainLater => True
  | _ => False
  end.

(** The state a signal delivery leaves. *)
Definition after_signal (sig : bool) (s : State) : State :=
  if sig then set_gStopRequested true (log_call SignalCaught s) else s.

(** The state the audio input step leaves. *)
Definition after_audioInput (gRecordAudio : bool) (i : option AudioInput)
           (s : State) : State :=
  match gRecordAudio, i with
  | true, Some a =>
      log_call (QueueInputBuffer (inBufIndex a) (audioSize a)
                                 (Z.quot (inClockNs a) 1000)) s
  | _, _ => s
  end.

(** The loop is left at the head of the iteration: the flag is up when the
    condition is evaluated, or the deadline has passed. *)
Definition left_at_head (endWhenNsec : Z) (e : IterEnv) (s : State) : bool :=
  gStopRequested (after_signal (sigHead e) s) || (endWhenNsec <? headClockNs e).

(** The timestamp the audio encoder reported with the buffer of this
    iteration, when that buffer is one the loop forwards. *)
Definition reportedAudioPts (fw : Framework) (e : IterEnv) : list Z :=
  match dequeued (audioOut e) with
  | GotBuffer _ _ _ ptsUsec _ =>
      if is_data fw (audioOut e) then [ptsUsec] else []
  | _ => []
  end.

(** Every timestamp the audio encoder hands out in iteration [e] is at most
    [bound]. *)
Definition audio_pts_at_most (bound : Z) (e : IterEnv) : Prop :=
  forall b o sz p f, dequeued (audioOut e) = GotBuffer b o sz p f -> p <= bound.

(** The same over the iterations of a run. *)
Definition audioReported (fw : Framework) (envs : list IterEnv) : list Z :=
  flat_map (reportedAudioPts fw) envs.

(** Equality test on streams. *)
Definition stream_eqb (a b : Stream) : bool :=
  match a, b with
  | Video, Video | Audio, Audio => true
  | _, _ => false
  end.

(** The event hands a buffer of stream [st] to the muxer or back to the
    encoder. *)
Definition about (st : Stream) (ev : Event) : bool :=
  match ev with
  | WriteSampleData st' _ _ _ _ | ReleaseOutputBuffer st' _ => stream_eqb st st'
  | _ => false
  end.

(** The answers of the encoder of stream [st] in iteration [e]. *)
Definition outputOf (st : Stream) (e : IterEnv) : OutputEnv :=
  match st with Video => videoOut e | Audio => audioOut e end.

(** What an iteration does with the buffer [bufIndex] it dequeued from [st]:
    one [writeSampleData] when the buffer is data, then one
    [releaseOutputBuffer]. *)
Definition buffer_calls (fw : Framework) (st : Stream) (e : OutputEnv)
           (bufIndex flags : Z) (l : list Event) : Prop :=
  exists trackIdx pts,
    l = (if is_data fw e
         then [WriteSampleData st bufIndex trackIdx pts flags] else [])
        ++ [ReleaseOutputBuffer st bufIndex].

(** The value of [gStopRequested] at the end of a loop body that was entered
    (the flag was down at the head): signals raise it, a released buffer
    flagged end-of-stream lowers it. *)
Definition flag_after_body (fw : Framework) (gRecordAudio : bool)
           (e : IterEnv) : bool :=
  let afterVideo := if saw_eos fw (videoOut e) then false else sigBody e in
  let beforeAudio := afterVideo || sigBetween e in
  if gRecordAudio && saw_eos fw (audioOut e) then false else beforeAudio.

(** The stop flag is up at the head of the iteration [e] that follows the
    iterations [envs]: a signal is delivered there, or one was delivered
    during the last iteration and no buffer flagged end-of-stream was released
    after it. *)
Definition stop_raised (fw : Framework) (gRecordAudio : bool)
           (envs : list IterEnv) (e : IterEnv) : bool :=
  match rev envs with
  | [] => false
  | e1 :: _ => flag_after_body fw gRecordAudio e1
  end || sigHead e.

(** No [writeSampleData] follows a delivery of the signal. *)
Definition no_write_after_signal (l : list Event) : Prop :=
  forall pre post, l = pre ++ SignalCaught :: post ->
                   forallb (fun ev => negb (is_write ev)) post = true.

(** The state in which the video output of iteration [e] is handled. *)
Definition before_video (gRecordAudio : bool) (e : IterEnv) (s : State)
  : State :=
  after_signal (sigBody e)
    (after_audioInput gRecordAudio (audioIn e) (after_signal (sigHead e) s)).



(** The timestamp a video data buffer is written with. *)
Definition videoPts (e : OutputEnv) (ptsUsec : Z) : Z :=
  if ptsUsec =? 0 then Z.quot (clockNs e) 1000 else ptsUsec.

(** The number of tracks the session expects. *)
Definition expected_tracks (gRecordAudio : bool) : nat :=
  if gRecordAudio then 2%nat else 1%nat.

(** Every [start] in the log comes directly after an [addTrack], the one that
    brought the number of added tracks to [expected]. *)
Definition start_after_last_track (expected : nat) (l : list Event) : Prop :=
  forall pre post, l = pre ++ MuxerStart :: post ->
    count_tracks pre = expected /\
    exists st pre', pre = pre' ++ [AddTrack st].

(** The registrar's bookkeeping, as long as no more tracks were added than
    the session expects. *)
Definition registrar (g : bool) (n : Z) (l : list Event) : Prop :=
  (g = false -> count_format_changes Audio l = 0%nat) /\
  ((count_tracks l <= expected_tracks g)%nat ->
   n = Z.of_nat (count_tracks l) /\
   count_starts l =
     (if (expected_tracks g <=? count_tracks l)%nat then 1 else 0)%nat /\
   start_after_last_track (expected_tracks g) l).

(** The same, on a state. *)
Definition registrar_ok (g : bool) (s : State) : Prop :=
  registrar g (tracksAdded s) (calls s).

(** Neither [addTrack] nor [start]. *)
Definition not_registration (ev : Event) : bool :=
  match ev with
  | AddTrack _ | MuxerStart => false
  | _ => true
  end.

(** Every [writeSampleData] in the log has a [start] before it. *)
Definition started_before_writes (l : list Event) : Prop :=
  forall pre ev post, l = pre ++ ev :: post -> is_write ev = true ->
                      In MuxerStart pre.

(** In a session without audio the track index is set only by an iteration
    that also starts the muxer. *)
Definition video_only_started (s : State) : Prop :=
  0 <= tracksAdded s /\
  (tracksAdded s <> 0 \/ videoTrackIdx s <> -1 -> In MuxerStart (calls s)) /\
  started_before_writes (calls s).

(** ** Concrete sessions *)

(** The encoder reports a format change; [addTrack] answers index 0. *)
Definition formatChanged : OutputEnv := answering FormatChanged 0 0.

(** A data buffer (index 0, size 10) with the given timestamp and flags,
    handled when the clock reads [clock]. *)
Definition buffer (pts flags clock : Z) : OutputEnv :=
  answering (GotBuffer 0 0 10 pts flags) clock 0.

(** Audio is recorded; the video format and a video frame arrive before the
    audio encoder has reported its format.  [w] is what the muxer answers to
    the [writeSampleData] of that frame. *)
Definition videoFrameBeforeAudioFormat (w : status_t) : list IterEnv :=
  [ iteration 0 formatChanged idle;
    iteration 0 {| dequeued := GotBuffer 0 0 10 7 0; clockNs := 0;
                   addedTrack := 0; startResult := NO_ERROR;
                   writeResult := w; releaseResult := NO_ERROR;
                   buffersResult := NO_ERROR |} idle ].

(** The signal is delivered before a video frame flagged end-of-stream is
    handled; two quiet iterations follow. *)
Definition signalBeforeLastFrame : list IterEnv :=
  [ iteration 0 formatChanged idle;
    {| sigHead := false; headClockNs := 0; audioIn := None; sigBody := true;
       videoOut := buffer 7 4 0; sigBetween := false; audioOut := idle |};
    iteration 0 idle idle;
    iteration 0 idle idle ].

(** A further format change, with the muxer's answers to [addTrack] and
    [start]. *)
Definition formatChangedAgain (track : Z) (start : status_t) : OutputEnv :=
  {| dequeued := FormatChanged; clockNs := 0; addedTrack := track;
     startResult := start; writeResult := NO_ERROR;
     releaseResult := NO_ERROR; buffersResult := NO_ERROR |}.

(** No audio.  The video encoder reports a format change twice; the muxer,
    already started, answers the second [addTrack] and the second [start]
    with INVALID_OPERATION. *)
Definition videoFormatChangedTwice : list IterEnv :=
  [ iteration 0 formatChanged idle;
    iteration 0 (formatChangedAgain (-38) (Error (-38))) idle ].


(** The audio format is known first, the video format an iteration later. *)
Definition audioFormatFirst : list IterEnv :=
  [ iteration 0 idle formatChanged;
    iteration 0 formatChanged idle ].

(** Both formats, then audio buffers stamped 100, 90 and 50. *)
Definition scenarioD : list IterEnv :=
  [ iteration 0 formatChanged formatChanged;
    iteration 0 idle (buffer 100 0 0);
    iteration 0 idle (buffer 90 0 0);
    iteration 0 idle (buffer 50 0 0) ].

(** Both formats, then audio buffers stamped 9223372036854775797
    (INT64_MAX - 10), 5 and 6. *)
Definition nearInt64Max : list IterEnv :=
  [ iteration 0 formatChanged formatChanged;
    iteration 0 idle (buffer 9223372036854775797 0 0);
    iteration 0 idle (buffer 5 0 0);
    iteration 0 idle (buffer 6 0 0) ].

(** A frame flagged end-of-stream (flags 4) from each encoder. *)
Definition lastFrames : IterEnv :=
  iteration 0 (buffer 7 4 0) (buffer 9 4 0).

(** The signal is delivered in the second iteration, after the deadline test
    and before the video frame of that iteration is handled. *)
Definition signalBeforeFrame : list IterEnv :=
  [ iteration 0 formatChanged idle;
    {| sigHead := false; headClockNs := 0; audioIn := None; sigBody := true;
       videoOut := buffer 7 0 0; sigBetween := false; audioOut := idle |} ].

(** The session starts at 5 s on the monotonic clock; a frame without
    timestamp is handled 999 ns later. *)
Definition frameRightAfterStart : list IterEnv :=
  [ iteration 5000000000 formatChanged idle;
    iteration 5000000000 (buffer 0 0 5000000999) idle ].

(** A codec-config buffer from the video encoder and a buffer carrying only
    the end-of-stream flag from the audio encoder. *)
Definition configAndEosOnly : IterEnv :=
  iteration 0 (answering (GotBuffer 3 0 25 0 2) 0 0)
              (answering (GotBuffer 5 0 0 0 4) 0 0).

(** ** Further readings of the call log *)

(** The event is not a [writeSampleData] with track index -1. *)
Definition track_index_set (ev : Event) : Prop :=
  match ev with
  | WriteSampleData _ _ trackIdx _ _ => trackIdx <> -1
  | _ => True
  end.

(** The event involves neither the audio encoder nor the audio recorder. *)
Definition audio_free (ev : Event) : bool :=
  match ev with
  | GetOutputBuffers Audio | GetInputBuffers | RecorderStart | RecorderStop
  | QueueInputBuffer _ _ _ | AddTrack Audio | WriteSampleData Audio _ _ _ _
  | ReleaseOutputBuffer Audio _ | EncoderStop Audio | EncoderRelease Audio =>
      false
  | _ => true
  end.

(** The muxer refuses the frame of the second iteration with error -38. *)
Definition frameRefused : list IterEnv :=
  [ iteration 0 formatChanged idle;
    iteration 0 {| dequeued := GotBuffer 0 0 10 7 0; clockNs := 0;
                   addedTrack := 0; startResult := NO_ERROR;
                   writeResult := Error (-38); releaseResult := NO_ERROR;
                   buffersResult := NO_ERROR |} idle ].

(** ** The command line: [strtol], [atoi], [parseWidthHeight]

    A C string is the list of its characters before the terminating NUL.
    [strtol] and [atoi] are the C library's; they are modelled as the C
    standard describes them for base 10, with [long] as wide as the platform
    has it ([LONG_MAX] is a parameter). *)

Definition cstring : Type := list ascii.

Definition char_code (c : ascii) : Z := Z.of_nat (nat_of_ascii c).

(** [isspace] in the C locale: space, and \t \n \v \f \r. *)
Definition isspace (c : ascii) : bool :=
  (char_code c =? 32) || ((9 <=? char_code c) && (char_code c <=? 13)).

Definition isdigit (c : ascii) : bool :=
  (48 <=? char_code c) && (char_code c <=? 57).

Definition digit_value (c : ascii) : Z := char_code c - 48.

Arguments isspace : simpl never.
Arguments isdigit : simpl never.

Fixpoint skip_spaces (s : cstring) : cstring :=
  match s with
  | c :: r => if isspace c then skip_spaces r else s
  | [] => []
  end.

(** Reads the run of digits at the front of [s]; the digits before it are
    worth [acc].  Returns the value and the rest of the string. *)
Fixpoint read_digits (acc : Z) (s : cstring) : Z * cstring :=
  match s with
  | c :: r =>
      if isdigit c then read_digits (acc * 10 + digit_value c) r else (acc, s)
  | [] => (acc, [])
  end.

(** The value out of range is replaced by LONG_MIN or LONG_MAX. *)
Definition clamp_long (LONG_MAX v : Z) : Z :=
  Z.max (- LONG_MAX - 1) (Z.min LONG_MAX v).

(** [strtol(nptr, &end, 10)]: the value, and the string at [end].  When no
    digits are found the value is 0 and [end] is [nptr]. *)
Definition strtol (LONG_MAX : Z) (nptr : cstring) : Z * cstring :=
  let s := skip_spaces nptr in
  let '(negative, s) :=
    match s with
    | c :: r =>
        if Ascii.eqb c "-" then (true, r)
        else if Ascii.eqb c "+" then (false, r)
        else (false, s)
    | [] => (false, s)
    end in
  match s with
  | c :: _ =>
      if isdigit c then
        let '(v, rest) := read_digits 0 s in
        (clamp_long LONG_MAX (if negative then - v else v), rest)
      else (0, nptr)
  | [] => (0, nptr)
  end.

(** Conversion of a [long] or [int] to [uint32_t]. *)
Definition to_uint32 (v : Z) : Z := v mod UINT32_MODULUS.

(** Conversion of a [long] to [int]. *)
Definition to_int32 (v : Z) : Z := (v + 2147483648) mod UINT32_MODULUS - 2147483648.

(** [atoi(s)], which is [(int) strtol(s, NULL, 10)]. *)
Definition atoi (LONG_MAX : Z) (s : cstring) : Z :=
  to_int32 (fst (strtol LONG_MAX s)).

(** [parseWidthHeight]: [Some (width, height)] when it returns true, with the
    values as stored in the [uint32_t] out-parameters.  [end == widthHeight]
    is the test that [strtol] consumed nothing. *)
Definition parseWidthHeight (LONG_MAX : Z) (widthHeight : cstring)
  : option (Z * Z) :=
  let '(width, e) := strtol LONG_MAX widthHeight in
  if (length e =? length widthHeight)%nat then None
  else
    match e with
    | c :: after =>
        if negb (Ascii.eqb c "x") then None
        else
          match after with
          | [] => None
          | _ :: _ =>
              let '(height, e') := strtol LONG_MAX after in
              match e' with
              | [] => Some (to_uint32 width, to_uint32 height)
              | _ :: _ => None
              end
          end
    | [] => None
    end.

(** The value of a run of digits read after digits worth [acc]. *)
Definition digits_value (acc : Z) (ds : cstring) : Z :=
  fold_left (fun a c => a * 10 + digit_value c) ds acc.

Inductive Sign : Type := NoSign | PlusSign | MinusSign.

Definition sign_chars (sg : Sign) : cstring :=
  match sg with
  | NoSign => []
  | PlusSign => ["+"%char]
  | MinusSign => ["-"%char]
  end.

Definition sign_apply (sg : Sign) (v : Z) : Z :=
  match sg with MinusSign => - v | _ => v end.

(** [s] is a decimal number as [strtol] reads one: white space, an optional
    sign, one or more digits; [v] is its value. *)
Inductive number_syntax : cstring -> Z -> Prop :=
| number_intro (ws : cstring) (sg : Sign) (ds : cstring) :
    forallb isspace ws = true ->
    forallb isdigit ds = true ->
    ds <> [] ->
    number_syntax (ws ++ sign_chars sg ++ ds)
                  (sign_apply sg (digits_value 0 ds)).

(** The string does not go on with a digit. *)
Definition no_digit_ahead (s : cstring) : Prop :=
  match s with
  | c :: _ => isdigit c = false
  | [] => True
  end.

(** ** The command line: [main]

    The constants and the command-line globals of the file. *)

Definition kMinBitRate : Z := 100000.
Definition kMaxBitRate : Z := 100 * 1000000.
Definition kMaxTimeLimitSec : Z := 180.
Definition kFallbackWidth : Z := 1280.
Definition kFallbackHeight : Z := 720.
Definition kAudioSampleRate : Z := 22050.
Definition kSamplesPerFrame : Z := 2048.

(** The globals and what uses them are kept in a module of their own: two of
    the names are also parameters of the encoder loop above. *)
Module Screenrecord.

Record Globals : Type := mkGlobals {
  gVerbose : bool;
  gRotate : bool;
  gSizeSpecified : bool;
  gRecordAudio : bool;
  gVideoWidth : Z;
  gVideoHeight : Z;
  gBitRate : Z;
  gTimeLimitSec : Z
}.

Definition set_gVerbose (v : bool) (g : Globals) : Globals :=
  mkGlobals v (gRotate g) (gSizeSpecified g) (gRecordAudio g)
            (gVideoWidth g) (gVideoHeight g) (gBitRate g) (gTimeLimitSec g).
Definition set_gRotate (v : bool) (g : Globals) : Globals :=
  mkGlobals (gVerbose g) v (gSizeSpecified g) (gRecordAudio g)
            (gVideoWidth g) (gVideoHeight g) (gBitRate g) (gTimeLimitSec g).
Definition set_gSizeSpecified (v : bool) (g : Globals) : Globals :=
  mkGlobals (gVerbose g) (gRotate g) v (gRecordAudio g)
            (gVideoWidth g) (gVideoHeight g) (gBitRate g) (gTimeLimitSec g).
Definition set_gRecordAudio (v : bool) (g : Globals) : Globals :=
  mkGlobals (gVerbose g) (gRotate g) (gSizeSpecified g) v
            (gVideoWidth g) (gVideoHeight g) (gBitRate g) (gTimeLimitSec g).
Definition set_gVideoWidth (v : Z) (g : Globals) : Globals :=
  mkGlobals (gVerbose g) (gRotate g) (gSizeSpecified g) (gRecordAudio g)
            v (gVideoHeight g) (gBitRate g) (gTimeLimitSec g).
Definition set_gVideoHeight (v : Z) (g : Globals) : Globals :=
  mkGlobals (gVerbose g) (gRotate g) (gSizeSpecified g) (gRecordAudio g)
            (gVideoWidth g) v (gBitRate g) (gTimeLimitSec g).
Definition set_gBitRate (v : Z) (g : Globals) : Globals :=
  mkGlobals (gVerbose g) (gRotate g) (gSizeSpecified g) (gRecordAudio g)
            (gVideoWidth g) (gVideoHeight g) v (gTimeLimitSec g).
Definition set_gTimeLimitSec (v : Z) (g : Globals) : Globals :=
  mkGlobals (gVerbose g) (gRotate g) (gSizeSpecified g) (gRecordAudio g)
            (gVideoWidth g) (gVideoHeight g) (gBitRate g) v.

(** The globals as they are initialised. *)
Definition initialGlobals : Globals :=
  {| gVerbose := false; gRotate := false; gSizeSpecified := false;
     gRecordAudio := false; gVideoWidth := 0; gVideoHeight := 0;
     gBitRate := 4000000; gTimeLimitSec := kMaxTimeLimitSec |}.

(** One answer of [getopt_long]: the value returned and [optarg]. *)
Record GetoptResult : Type := mkGetoptResult {
  ic : Z;
  optarg : cstring
}.

(** How the option loop of [main] ends. *)
Inductive Options : Type :=
| Help                      (* usage(); return 0; *)
| Rejected                  (* return 2; *)
| Parsed (g : Globals).     (* getopt_long returned -1 *)

(** The option loop of [main] on the answers of [getopt_long].  The loop is
    left when [getopt_long] answers -1, which it also does when it has no
    option left to report. *)
Fixpoint optionLoop (LONG_MAX : Z) (answers : list GetoptResult) (g : Globals)
  : Options :=
  match answers with
  | [] => Parsed g
  | o :: rest =>
      if ic o =? -1 then Parsed g
      else if ic o =? char_code "h" then Help
      else if ic o =? char_code "v" then
        optionLoop LONG_MAX rest (set_gVerbose true g)
      else if ic o =? char_code "s" then
        match parseWidthHeight LONG_MAX (optarg o) with
        | None => Rejected
        | Some (width, height) =>
            let g := set_gVideoHeight height (set_gVideoWidth width g) in
            if (gVideoWidth g =? 0) || (gVideoHeight g =? 0) then Rejected
            else optionLoop LONG_MAX rest (set_gSizeSpecified true g)
        end
      else if ic o =? char_code "b" then
        let g := set_gBitRate (to_uint32 (atoi LONG_MAX (optarg o))) g in
        if (gBitRate g <? kMinBitRate) || (gBitRate g >? kMaxBitRate)
        then Rejected
        else optionLoop LONG_MAX rest g
      else if ic o =? char_code "t" then
        let g := set_gTimeLimitSec (to_uint32 (atoi LONG_MAX (optarg o))) g in
        if (gTimeLimitSec g =? 0) || (gTimeLimitSec g >? kMaxTimeLimitSec)
        then Rejected
        else optionLoop LONG_MAX rest g
      else if ic o =? char_code "r" then
        optionLoop LONG_MAX rest (set_gRotate true g)
      else if ic o =? char_code "a" then
        optionLoop LONG_MAX rest (set_gRecordAudio true g)
      else Rejected
  end.

(** What [main] does besides parsing. *)
Inductive MainCall : Type :=
| Usage
| OpenOutputFile
| CloseOutputFile
| RecordScreen (g : Globals)
| NotifyMediaScanner.

(** The inputs of [main]: the answers of [getopt_long], [argc - optind] once
    the options are read, the descriptor [open] returns and the status
    [recordScreen] returns. *)
Record MainEnv : Type := mkMainEnv {
  getopt_long : list GetoptResult;
  remainingArgs : Z;
  fd : Z;
  recordScreenResult : status_t
}.

(** [main]: the calls made and the exit status. *)
Definition main (LONG_MAX : Z) (env : MainEnv) : list MainCall * Z :=
  match optionLoop LONG_MAX (getopt_long env) initialGlobals with
  | Help => ([Usage], 0)
  | Rejected => ([], 2)
  | Parsed g =>
      if negb (remainingArgs env =? 1) then ([], 2)
      else if fd env <? 0 then ([OpenOutputFile], 1)
      else
        match recordScreenResult env with
        | NO_ERROR =>
            ([OpenOutputFile; CloseOutputFile; RecordScreen g;
              NotifyMediaScanner], 0)
        | Error err =>
            ([OpenOutputFile; CloseOutputFile; RecordScreen g], err)
        end
  end.

(** What [main] guarantees about the globals when it starts a recording. *)
Definition valid_configuration (g : Globals) : Prop :=
  kMinBitRate <= gBitRate g <= kMaxBitRate /\
  1 <= gTimeLimitSec g <= kMaxTimeLimitSec /\
  if gSizeSpecified g
  then 0 < gVideoWidth g < UINT32_MODULUS /\
       0 < gVideoHeight g < UINT32_MODULUS
  else gVideoWidth g = 0 /\ gVideoHeight g = 0.

(** [screenrecord --size 1280x720 --bit-rate 6000000 --audio out.mp4]. *)
Definition sizeBitRateAudio : MainEnv :=
  {| getopt_long :=
       [ mkGetoptResult (char_code "s")
           ["1"; "2"; "8"; "0"; "x"; "7"; "2"; "0"]%char;
         mkGetoptResult (char_code "b")
           ["6"; "0"; "0"; "0"; "0"; "0"; "0"]%char;
         mkGetoptResult (char_code "a") [] ];
     remainingArgs := 1;
     fd := 3;
     recordScreenResult := NO_ERROR |}.

(** ** The buffer of the audio recorder

    [size_t] is as wide as the platform has it ([SIZE_MAX] is a parameter);
    [BAD_VALUE] and [AUDIO_FORMAT_PCM_16_BIT] come from framework headers. *)

Section AudioRecordBuffer.

Variable SIZE_MAX : Z.
Variable BAD_VALUE : Z.
Variable AUDIO_FORMAT_PCM_16_BIT : Z.

(** Conversion to [size_t], and arithmetic in it. *)
Definition to_size_t (v : Z) : Z := v mod (SIZE_MAX + 1).

(** [getMinBuffSize], on what [AudioRecord::getMinFrameCount] answers: its
    status and the frame count it stores. *)
Definition getMinBuffSize (sampleRateInHertz nbChannels audioFormat : Z)
           (result : status_t) (frameCount : Z) : Z :=
  match result with
  | Error err =>
      if err =? BAD_VALUE then 0 else to_uint32 (-1)
  | NO_ERROR =>
      let bytesPerSample :=
        if audioFormat =? AUDIO_FORMAT_PCM_16_BIT then 2 else 1 in
      to_uint32 (to_size_t (to_size_t (frameCount * nbChannels)
                            * bytesPerSample))
  end.

(** [buffSize] as [runEncoder] computes it from [minBuffSize]. *)
Definition buffSize (minBuffSize : Z) : Z :=
  let buffSize := to_size_t (to_uint32 (kSamplesPerFrame * 10)) in
  if buffSize <? minBuffSize
  then to_size_t
         (to_size_t
            (to_size_t (minBuffSize / kSamplesPerFrame + 1) * kSamplesPerFrame)
          * 2)
  else buffSize.

(** The frame count [runEncoder] hands to [audioRecorder->set]. *)
Definition recorderFrameCount (result : status_t) (frameCount : Z) : Z :=
  let minBuffSize :=
    to_size_t (getMinBuffSize kAudioSampleRate 1 AUDIO_FORMAT_PCM_16_BIT
                              result frameCount) in
  buffSize minBuffSize / 2.

End AudioRecordBuffer.

(** ** recordScreen

    The calls of a whole session.  The calls made from [runEncoder] on are
    the events of the encoder loop; [Release] is [release()] on the codec a
    prepare function has just created, while [EncoderRelease] is
    [release()] on [recordScreen]'s [videoEncoder] or [audioEncoder]. *)
Inductive SessionCall : Type :=
| ConfigureSignals
| StartThreadPool
| GetDisplayInfo
| VideoFormat (width height bitrate : Z)   (* format->setInt32 of "width", "height", "bitrate" *)
| CreateByType (st : Stream) (created : bool)   (* and whether a codec came back *)
| Configure (st : Stream)
| CreateInputSurface
| Start (st : Stream)
| Release (st : Stream)
| CreateDisplay
| NewMediaMuxer
| SetOrientationHint (degrees : Z)
| Encoding (ev : Event).

(** What [MediaCodec] answers while a codec is prepared. *)
Record CodecEnv : Type := mkCodecEnv {
  codecCreated : bool;               (* CreateByType returned a codec *)
  configureResult : status_t;
  createInputSurfaceResult : status_t;
  codecStartResult : status_t
}.

(** The inputs of a session. *)
Record SessionEnv : Type := mkSessionEnv {
  configureSignalsResult : status_t;
  getDisplayInfoResult : status_t;
  mainDpyW : Z;                      (* mainDpyInfo.w *)
  mainDpyH : Z;                      (* mainDpyInfo.h *)
  mainDpyOrientation : Z;            (* mainDpyInfo.orientation *)
  videoCodec : CodecEnv;             (* first call of prepareVideoEncoder *)
  videoCodecRetry : CodecEnv;        (* second call of prepareVideoEncoder *)
  audioCodec : CodecEnv;             (* prepareAudioEncoder *)
  stopOnEntry : bool;                (* gStopRequested when runEncoder is entered *)
  encoderSetup : SetupEnv;
  encoderLoop : list IterEnv
}.

Section RecordScreen.

Variable fw : Framework.
(** From the framework headers. *)
Variable UNKNOWN_ERROR : Z.
Variable DISPLAY_ORIENTATION_0 : Z.
Variable DISPLAY_ORIENTATION_180 : Z.

Definition isDeviceRotated (orientation : Z) : bool :=
  negb (orientation =? DISPLAY_ORIENTATION_0) &&
  negb (orientation =? DISPLAY_ORIENTATION_180).

(** [prepareVideoEncoder]: the calls made and the status returned.  The
    globals are [uint32_t] and [setInt32] takes an [int32_t]. *)
Definition prepareVideoEncoder (g : Globals) (c : CodecEnv)
  : list SessionCall * status_t :=
  let format := VideoFormat (to_int32 (gVideoWidth g))
                            (to_int32 (gVideoHeight g))
                            (to_int32 (gBitRate g)) in
  if negb (codecCreated c)
  then ([format; CreateByType Video false], Error UNKNOWN_ERROR)
  else
    match configureResult c with
    | Error err =>
        ([format; CreateByType Video true; Configure Video; Release Video],
         Error err)
    | NO_ERROR =>
        match createInputSurfaceResult c with
        | Error err =>
            ([format; CreateByType Video true; Configure Video;
              CreateInputSurface; Release Video], Error err)
        | NO_ERROR =>
            match codecStartResult c with
            | Error err =>
                ([format; CreateByType Video true; Configure Video;
                  CreateInputSurface; Start Video; Release Video], Error err)
            | NO_ERROR =>
                ([format; CreateByType Video true; Configure Video;
                  CreateInputSurface; Start Video], NO_ERROR)
            end
        end
    end.

(** [prepareAudioEncoder]. *)
Definition prepareAudioEncoder (c : CodecEnv) : list SessionCall * status_t :=
  if negb (codecCreated c)
  then ([CreateByType Audio false], Error UNKNOWN_ERROR)
  else
    match configureResult c with
    | Error err =>
        ([CreateByType Audio true; Configure Audio; Release Audio], Error err)
    | NO_ERROR =>
        match codecStartResult c with
        | Error err =>
            ([CreateByType Audio true; Configure Audio; Start Audio;
              Release Audio], Error err)
        | NO_ERROR =>
            ([CreateByType Audio true; Configure Audio; Start Audio],
             NO_ERROR)
        end
    end.

(** [prepareVirtualDisplay] creates the display and always returns NO_ERROR.
    The rectangles of the projection, which it computes in [float], are not
    part of the model. *)
Definition prepareVirtualDisplay : list SessionCall * status_t :=
  ([CreateDisplay], NO_ERROR).

(** The width and height [recordScreen] takes from the display when none was
    set. *)
Definition defaultSize (g : Globals) (env : SessionEnv) : Globals :=
  let rotated := isDeviceRotated (mainDpyOrientation env) in
  let g :=
    if gVideoWidth g =? 0
    then set_gVideoWidth (if rotated then mainDpyH env else mainDpyW env) g
    else g in
  if gVideoHeight g =? 0
  then set_gVideoHeight (if rotated then mainDpyW env else mainDpyH env) g
  else g.

(** The second attempt of [recordScreen] at preparing the video encoder:
    the globals, the calls and the status after it. *)
Definition fallback (g : Globals) (env : SessionEnv) (err : status_t)
  : Globals * list SessionCall * status_t :=
  match err with
  | NO_ERROR => (g, [], err)
  | Error _ =>
      if negb (gSizeSpecified g) then
        let needSwap := gVideoWidth g <? gVideoHeight g in
        let newWidth := if needSwap then kFallbackHeight else kFallbackWidth in
        let newHeight := if needSwap then kFallbackWidth else kFallbackHeight in
        if negb (gVideoWidth g =? newWidth) && negb (gVideoHeight g =? newHeight)
        then
          let g := set_gVideoHeight newHeight (set_gVideoWidth newWidth g) in
          let '(calls, err) := prepareVideoEncoder g (videoCodecRetry env) in
          (g, calls, err)
        else (g, [], err)
      else (g, [], err)
  end.

(** [recordScreen]: the calls made and how the session ends.  [Completed] is
    [return 0;], [Aborted (Returned err)] is [return err;]. *)
Definition recordScreen (g : Globals) (env : SessionEnv)
  : list SessionCall * Outcome :=
  match configureSignalsResult env with
  | Error err => ([ConfigureSignals], Aborted (Returned err))
  | NO_ERROR =>
  match getDisplayInfoResult env with
  | Error err =>
      ([ConfigureSignals; StartThreadPool; GetDisplayInfo],
       Aborted (Returned err))
  | NO_ERROR =>
  let g := defaultSize g env in
  let '(first, err) := prepareVideoEncoder g (videoCodec env) in
  let '(g, second, err) := fallback g env err in
  let video :=
    [ConfigureSignals; StartThreadPool; GetDisplayInfo] ++ first ++ second in
  match err with
  | Error err => (video, Aborted (Returned err))
  | NO_ERROR =>
  let '(audio, g) :=
    if gRecordAudio g then
      let '(audio, err) := prepareAudioEncoder (audioCodec env) in
      match err with
      | NO_ERROR => (audio, g)
      | Error _ => (audio, set_gRecordAudio false g)
      end
    else ([], g) in
  let '(display, err) := prepareVirtualDisplay in
  match err with
  | Error err =>
      (video ++ audio ++ display
         ++ [Encoding (EncoderRelease Video)]
         ++ (if gRecordAudio g then [Encoding (EncoderRelease Audio)] else []),
       Aborted (Returned err))
  | NO_ERROR =>
  let muxer :=
    NewMediaMuxer :: (if gRotate g then [SetOrientationHint 90] else []) in
  let r := runEncoder fw (gRecordAudio g) (gTimeLimitSec g)
                      (stopOnEntry env) (encoderSetup env) (encoderLoop env) in
  (video ++ audio ++ display ++ muxer
     ++ map Encoding (recordScreenAfter (gRecordAudio g) r),
   snd r)
  end end end end.

End RecordScreen.

(** ** Vocabulary of the properties of a session *)

(** [recordScreen] has returned. *)
Definition returned (o : Outcome) : bool :=
  match o with
  | Completed | Aborted (Returned _) => true
  | _ => false
  end.

(** The call brought a codec of the stream into being. *)
Definition creates (st : Stream) (c : SessionCall) : bool :=
  match c with
  | CreateByType st' true => stream_eqb st st'
  | _ => false
  end.

(** The call releases a codec of the stream. *)
Definition releases (st : Stream) (c : SessionCall) : bool :=
  match c with
  | Release st' | Encoding (EncoderRelease st') => stream_eqb st st'
  | _ => false
  end.

(** The call does not use [recordScreen]'s [audioEncoder], nor the audio
    recorder or an audio track. *)
Definition audioEncoder_unused (c : SessionCall) : bool :=
  match c with
  | Encoding ev => audio_free ev
  | _ => true
  end.

(** The sizes of the video formats set up, in order. *)
Fixpoint video_formats (l : list SessionCall) : list (Z * Z) :=
  match l with
  | VideoFormat width height _ :: rest => (width, height) :: video_formats rest
  | _ :: rest => video_formats rest
  | [] => []
  end.

(** The event is none of the shutdown that follows [runEncoder]. *)
Definition loop_event (ev : Event) : Prop :=
  match ev with
  | DestroyDisplay | EncoderStop _ | EncoderRelease _ | MuxerStop => False
  | _ => True
  end.

(** The codecs of the stream that have been created and not released. *)
Definition held (st : Stream) (l : list SessionCall) : Z :=
  Z.of_nat (length (filter (creates st) l))
  - Z.of_nat (length (filter (releases st) l)).

(** What a prepare function for [codec] leaves behind of stream [st] when it
    returns [err]. *)
Definition prepared (codec st : Stream) (err : status_t) : Z :=
  match err with
  | NO_ERROR => if stream_eqb st codec then 1 else 0
  | Error _ => 0
  end.

(** ** Sample sessions *)

Definition codecReady : CodecEnv :=
  {| codecCreated := true; configureResult := NO_ERROR;
     createInputSurfaceResult := NO_ERROR; codecStartResult := NO_ERROR |}.

Definition codecRefusesFormat : CodecEnv :=
  {| codecCreated := true; configureResult := Error (-22);
     createInputSurfaceResult := NO_ERROR; codecStartResult := NO_ERROR |}.

(** A 1080x1920 display whose size the video encoder refuses, an audio
    encoder that cannot be configured, and a signal that ends the recording
    after the first frame. *)
Definition portraitSession : SessionEnv :=
  {| configureSignalsResult := NO_ERROR;
     getDisplayInfoResult := NO_ERROR;
     mainDpyW := 1080; mainDpyH := 1920; mainDpyOrientation := 0;
     videoCodec := codecRefusesFormat;
     videoCodecRetry := codecReady;
     audioCodec := codecRefusesFormat;
     stopOnEntry := false;
     encoderSetup := setupAt 0;
     encoderLoop := signalBeforeFrame ++ [iteration 0 idle idle] |}.

End Screenrecord.

(** ** The signal handlers: [configureSignals] and [signalCatcher]

    Here the handler is modelled with what it does to the signal
    dispositions, which the encoder loop above takes no account of.
    [configureSignals] leaves [sa_mask] empty, so a run of the handler for
    one of the two signals can be interrupted by a run for the other: the
    handler is modelled statement by statement. *)
Module Signals.

Inductive Signal : Type :=
| SIGINT
| SIGHUP
| OtherSignal (signum : Z).

(** A [struct sigaction]: the one [configureSignals] builds, whose handler is
    [signalCatcher], or some other one. *)
Inductive Sigaction : Type :=
| Catcher
| Other (act : Z).

(** The dispositions the kernel holds for the two signals, and the statics
    of the file. *)
Record Process : Type := mkProcess {
  onSIGINT : Sigaction;
  onSIGHUP : Sigaction;
  gOrigSigactionINT : Sigaction;
  gOrigSigactionHUP : Sigaction;
  gStopRequested : bool
}.

(** The statements of [signalCatcher]. *)
Inductive Statement : Type :=
| RaiseStop       (* gStopRequested = true; *)
| RestoreINT      (* sigaction(SIGINT, &gOrigSigactionINT, NULL); *)
| RestoreHUP      (* sigaction(SIGHUP, &gOrigSigactionHUP, NULL); *)
| Abort.          (* abort(); *)

(** [signalCatcher]: the statements a run for [signum] goes through. *)
Definition signalCatcher (signum : Signal) : list Statement :=
  RaiseStop ::
  match signum with
  | SIGINT | SIGHUP => [RestoreINT; RestoreHUP]
  | OtherSignal _ => [Abort]
  end.

(** One statement; [None] when the process is aborted.  The two calls of
    [sigaction], whose results the handler ignores, are given valid
    arguments and succeed. *)
Definition execute (st : Statement) (p : Process) : option Process :=
  match st with
  | RaiseStop =>
      Some {| onSIGINT := onSIGINT p;
              onSIGHUP := onSIGHUP p;
              gOrigSigactionINT := gOrigSigactionINT p;
              gOrigSigactionHUP := gOrigSigactionHUP p;
              gStopRequested := true |}
  | RestoreINT =>
      Some {| onSIGINT := gOrigSigactionINT p;
              onSIGHUP := onSIGHUP p;
              gOrigSigactionINT := gOrigSigactionINT p;
              gOrigSigactionHUP := gOrigSigactionHUP p;
              gStopRequested := gStopRequested p |}
  | RestoreHUP =>
      Some {| onSIGINT := onSIGINT p;
              onSIGHUP := gOrigSigactionHUP p;
              gOrigSigactionINT := gOrigSigactionINT p;
              gOrigSigactionHUP := gOrigSigactionHUP p;
              gStopRequested := gStopRequested p |}
  | Abort => None
  end.

(** The statements in the order in which they are executed. *)
Fixpoint run (l : list Statement) (p : Process) : option Process :=
  match l with
  | [] => Some p
  | st :: rest =>
      match execute st p with
      | Some p' => run rest p'
      | None => None
      end
  end.

(** [configureSignals], on the results of its two calls of [sigaction]
    ([Error err] with [err = -errno] when the call returns non-zero). *)
Definition configureSignals (sigactionINT sigactionHUP : status_t)
           (p : Process) : Process * status_t :=
  match sigactionINT with
  | Error err => (p, Error err)
  | NO_ERROR =>
      let p := {| onSIGINT := Catcher;
                  onSIGHUP := onSIGHUP p;
                  gOrigSigactionINT := onSIGINT p;
                  gOrigSigactionHUP := gOrigSigactionHUP p;
                  gStopRequested := gStopRequested p |} in
      match sigactionHUP with
      | Error err => (p, Error err)
      | NO_ERROR =>
          ({| onSIGINT := onSIGINT p;
              onSIGHUP := Catcher;
              gOrigSigactionINT := gOrigSigactionINT p;
              gOrigSigactionHUP := onSIGHUP p;
              gStopRequested := gStopRequested p |}, NO_ERROR)
      end
  end.

(** [l] executes the runs [runs] of the handler to their ends, in some
    interleaving: each step takes the next statement of one of the runs. *)
Inductive interleaving : list (list Statement) -> list Statement -> Prop :=
| interleaving_done (runs : list (list Statement)) :
    Forall (fun r => r = []) runs -> interleaving runs []
| interleaving_next (pre : list (list Statement)) (st : Statement)
                    (r : list Statement) (post : list (list Statement))
                    (l : list Statement) :
    interleaving (pre ++ r :: post) l ->
    interleaving (pre ++ (st :: r) :: post) (st :: l).

(** The handler is installed for these two signals only. *)
Definition caught (sig : Signal) : Prop := sig = SIGINT \/ sig = SIGHUP.

Definition startedFromShell : Process :=
  {| onSIGINT := Other 0; onSIGHUP := Other 1;
     gOrigSigactionINT := Other 0; gOrigSigactionHUP := Other 0;
     gStopRequested := false |}.

(** SIGINT arrives; before the handler has restored anything SIGHUP arrives
    and its run of the handler goes to its end; then the first run goes
    on. *)
Definition hangupDuringInterrupt : list Statement :=
  [RaiseStop; RaiseStop; RestoreINT; RestoreHUP; RestoreINT; RestoreHUP].

End Signals.

(** ** Proof steps used throughout *)

Ltac unfold_monad :=
  unfold countTrackAndStart, reconcileAudioPts, signalCatcher, deliver,
    audioInput, CHECK, return_on_error, call, modify, get, halt, bind, ret
    in *.

(** Case analysis on the innermost test the goal still branches on. *)
Ltac split_cases :=
  repeat (simpl;
          match goal with
          | |- context [match ?x with _ => _ end] =>
              lazymatch x with
              | context [match _ with _ => _ end] => fail
              | _ => destruct x eqn:?
              end
          end); simpl.

(** Turn the recorded outcomes of boolean tests into arithmetic facts. *)
Ltac to_prop :=
  repeat match goal with
    | H : negb _ = true |- _ => apply negb_true_iff in H
    | H : negb _ = false |- _ => apply negb_false_iff in H
    | H : (_ <? _) = true |- _ => apply Z.ltb_lt in H
    | H : (_ <? _) = false |- _ => apply Z.ltb_ge in H
    | H : (_ <=? _) = true |- _ => apply Z.leb_le in H
    | H : (_ <=? _) = false |- _ => apply Z.leb_gt in H
    | H : (_ =? _) = true |- _ => apply Z.eqb_eq in H
    | H : (_ =? _) = false |- _ => apply Z.eqb_neq in H
    end.

Ltac arith := to_prop; unfold kAacFrameTimeUs, INT64_MAX in *; lia.

Ltac split_in H :=
  repeat (simpl in H;
          match type of H with
          | context [match ?x with _ => _ end] =>
              lazymatch x with
              | context [match _ with _ => _ end] => fail
              | _ => destruct x eqn:?
              end
          end); simpl in H.

Ltac solve_new_calls :=
  eexists; split; [rewrite <- ?app_assoc; try reflexivity; symmetry; apply app_nil_r|].

Lemma preserves_bind {A B} (P : State -> Prop) (m : M A) (f : A -> M B) :
  preserves P m -> (forall a, preserves P (f a)) -> preserves P (bind m f).
Proof.
  intros Hm Hf s Hs. unfold bind.
  specialize (Hm s Hs). destruct (m s) as [s' [a|x]]; simpl in *.
  - apply Hf, Hm.
  - exact Hm.
Qed.

Lemma preserves_ret {A} (P : State -> Prop) (a : A) : preserves P (ret a).
Proof. intros s Hs. exact Hs. Qed.

Section Lifting.

Variable fw : Framework.
Variable gRecordAudio : bool.
Variable P : State -> Prop.
Hypothesis HP : LoopInvariant fw gRecordAudio P.

Lemma deliver_preserves sig : preserves P (deliver sig).
Proof.
  intros s Hs. destruct sig; simpl; [|exact Hs].
  apply (inv_flag _ _ _ HP), (inv_log _ _ _ HP); [reflexivity|exact Hs].
Qed.

Lemma audioInput_preserves i : preserves P (audioInput i).
Proof.
  intros s Hs. destruct i; simpl; [|exact Hs].
  apply (inv_log _ _ _ HP); [reflexivity|exact Hs].
Qed.

Lemma loopBody_preserves e : preserves P (loopBody fw gRecordAudio e).
Proof.
  pose proof audioInput_preserves as AI. pose proof deliver_preserves as D.
  pose proof (inv_video _ _ _ HP) as V. pose proof (inv_audio _ _ _ HP) as A.
  unfold loopBody.
  apply preserves_bind; [|intros _].
  { destruct gRecordAudio; [apply AI|apply preserves_ret]. }
  apply preserves_bind; [apply D|intros _].
  apply preserves_bind; [apply V|intros _].
  apply preserves_bind; [apply D|intros _].
  destruct gRecordAudio; [|apply preserves_ret].
  apply A. reflexivity.
Qed.

Lemma loopIteration_preserves endW e :
  preserves P (loopIteration fw gRecordAudio endW e).
Proof.
  unfold loopIteration.
  apply preserves_bind; [apply deliver_preserves|intros _].
  intros s Hs. unfold bind at 1, get.
  destruct (gStopRequested s); [exact Hs|].
  destruct (endW <? headClockNs e); [exact Hs|].
  revert s Hs. fold (preserves P (loopBody fw gRecordAudio e ;; ret Next)).
  apply preserves_bind; [apply loopBody_preserves|intros _; apply preserves_ret].
Qed.

Lemma whileLoop_preserves endW envs :
  forall s, P s -> P (fst (whileLoop fw gRecordAudio endW envs s)).
Proof.
  induction envs as [|e envs IH]; intros s Hs; simpl; [exact Hs|].
  pose proof (loopIteration_preserves endW e s Hs) as H.
  destruct (loopIteration fw gRecordAudio endW e s) as [s' [[|]|x]];
    simpl in *; auto.
Qed.

Lemma setup_preserves se : preserves P (setup gRecordAudio se).
Proof.
  intros s Hs. unfold setup. unfold_monad.
  pose proof (inv_log _ _ _ HP) as L. pose proof (inv_flag _ _ _ HP) as F.
  destruct (videoBuffers se); simpl; [|apply L; auto].
  destruct gRecordAudio; simpl; [|apply F, L; auto].
  destruct (audioOutputBuffers se); simpl; [|repeat apply L; auto].
  destruct (audioInputBuffers se); simpl; [|repeat apply L; auto].
  destruct (recorderInitCheck se); simpl; [|repeat apply L; auto].
  apply F. repeat apply L; auto.
Qed.

Lemma runEncoder_preserves gTimeLimitSec stop se envs :
  P (initialState stop) ->
  P (fst (runEncoder fw gRecordAudio gTimeLimitSec stop se envs)).
Proof.
  intros H0. unfold runEncoder.
  pose proof (inv_log _ _ _ HP) as L.
  pose proof (setup_preserves se _ H0) as H1.
  destruct (setup gRecordAudio se (initialState stop)) as [s [[]|x]];
    simpl in *; [|exact H1].
  pose proof (whileLoop_preserves (endWhen fw gTimeLimitSec se) envs s H1) as H2.
  destruct (whileLoop fw gRecordAudio (endWhen fw gTimeLimitSec se) envs s)
    as [s' [[|]|x]]; simpl in *; auto.
  destruct gRecordAudio; auto.
Qed.

End Lifting.

(** ** Facts about lists used below *)

Lemma Forall_snoc {A} (Q : A -> Prop) (l : list A) (x : A) :
  Forall Q l -> Q x -> Forall Q (l ++ [x]).
Proof. intros Hl Hx. apply Forall_app. split; [exact Hl|constructor; auto]. Qed.

Lemma audioPts_app l1 l2 : audioPts (l1 ++ l2) = audioPts l1 ++ audioPts l2.
Proof.
  induction l1 as [|ev l1 IH]; simpl; [reflexivity|].
  destruct ev as [| | | | | | | |[|] ? ? ? ?| | | | |]; simpl; rewrite ?IH; reflexivity.
Qed.

Lemma StronglySorted_snoc (l : list Z) (x : Z) :
  StronglySorted Z.le l -> Forall (fun y => y <= x) l ->
  StronglySorted Z.le (l ++ [x]).
Proof.
  induction 1 as [|a l Hs IH Ha]; intros Hx; simpl.
  - repeat constructor.
  - inversion Hx; subst. constructor; [auto|].
    apply Forall_snoc; assumption.
Qed.

(** ** No codec-config buffer reaches the muxer *)

Lemma config_free_invariant fw gRecordAudio :
  LoopInvariant fw gRecordAudio (fun s => Forall (config_free fw) (calls s)).
Proof.
  constructor.
  - intros ev s Hev Hs. simpl. apply Forall_snoc; [exact Hs|].
    destruct ev; simpl; auto; discriminate.
  - intros b s Hs. exact Hs.
  - intros e s Hs. unfold videoOutput. unfold_monad.
    destruct (dequeued e); simpl; split_cases;
      repeat (apply Forall_snoc; simpl; auto); try assumption.
  - intros _ e s Hs. unfold audioOutput. unfold_monad.
    destruct (dequeued e); simpl; split_cases;
      repeat (apply Forall_snoc; simpl; auto); try assumption.
Qed.

(** C8.  In every session, video-only or with audio, and for every sequence
    of answers of the encoders, the muxer and the clock, no call of
    [writeSampleData] made by [runEncoder] carries a buffer whose flags have
    BUFFER_FLAG_CODECCONFIG set. *)
Theorem no_codec_config_sample_written :
  forall fw gRecordAudio gTimeLimitSec stop se envs,
    Forall (config_free fw)
      (calls (fst (runEncoder fw gRecordAudio gTimeLimitSec stop se envs))).
Proof.
  intros. apply runEncoder_preserves with
    (P := fun s => Forall (config_free fw) (calls s)).
  - apply config_free_invariant.
  - constructor.
Qed.

(** ** The stages of one iteration *)

Lemma bind_val {A B} (m : M A) (f : A -> M B) s s' b :
  bind m f s = (s', Val b) ->
  exists a s1, m s = (s1, Val a) /\ f a s1 = (s', Val b).
Proof.
  unfold bind. destruct (m s) as [s1 [a|x]]; intros H; [|discriminate].
  exists a, s1. split; [reflexivity|exact H].
Qed.

Lemma deliver_eq sig s : deliver sig s = (after_signal sig s, Val tt).
Proof. destruct sig; reflexivity. Qed.

Lemma loopIteration_head fw gRecordAudio endW e s :
  left_at_head endW e s = true ->
  loopIteration fw gRecordAudio endW e s = (after_signal (sigHead e) s, Val Break).
Proof.
  unfold left_at_head, loopIteration. intros H.
  unfold bind at 1. rewrite deliver_eq. unfold bind at 1, get.
  destruct (gStopRequested (after_signal (sigHead e) s)); [reflexivity|].
  simpl in H. rewrite H. reflexivity.
Qed.

Lemma loopIteration_body fw gRecordAudio endW e s :
  left_at_head endW e s = false ->
  loopIteration fw gRecordAudio endW e s =
  (loopBody fw gRecordAudio e ;; ret Next) (after_signal (sigHead e) s).
Proof.
  unfold left_at_head, loopIteration. intros H.
  apply orb_false_iff in H. destruct H as [H1 H2].
  unfold bind at 1. rewrite deliver_eq. unfold bind at 1, get.
  rewrite H1, H2. reflexivity.
Qed.

(** An iteration that runs to the end of the body went through these
    states. *)
Lemma loopIteration_next fw gRecordAudio endW e s s' :
  loopIteration fw gRecordAudio endW e s = (s', Val Next) ->
  left_at_head endW e s = false /\
  exists s1 s2,
    videoOutput fw gRecordAudio (videoOut e)
      (after_signal (sigBody e)
         (after_audioInput gRecordAudio (audioIn e)
            (after_signal (sigHead e) s))) = (s1, Val tt) /\
    s2 = after_signal (sigBetween e) s1 /\
    (if gRecordAudio then audioOutput fw (audioOut e) s2
     else (s2, Val tt)) = (s', Val tt).
Proof.
  intros H. destruct (left_at_head endW e s) eqn:Hh.
  - rewrite loopIteration_head in H by exact Hh. discriminate.
  - split; [reflexivity|].
    rewrite loopIteration_body in H by exact Hh.
    apply bind_val in H. destruct H as ([] & s3 & H & Hr).
    inversion Hr; subst s3. clear Hr.
    unfold loopBody in H.
    apply bind_val in H. destruct H as ([] & sa & Ha & H).
    apply bind_val in H. destruct H as ([] & sb & Hb & H).
    apply bind_val in H. destruct H as ([] & s1 & Hv & H).
    apply bind_val in H. destruct H as ([] & s2 & Hc & H).
    rewrite deliver_eq in Hb, Hc. inversion Hb; subst sb. inversion Hc; subst s2.
    assert (sa = after_audioInput gRecordAudio (audioIn e)
                   (after_signal (sigHead e) s)) as ->.
    { unfold after_audioInput. destruct gRecordAudio; [|inversion Ha; reflexivity].
      destruct (audioIn e); inversion Ha; reflexivity. }
    exists s1, (after_signal (sigBetween e) s1). repeat split; [exact Hv|].
    destruct gRecordAudio; [|exact H].
    destruct (audioOutput fw (audioOut e) (after_signal (sigBetween e) s1))
      as [sz [[]|x]]; inversion H; reflexivity.
Qed.

(** A run of the loop that is still going after a further iteration. *)
Lemma whileLoop_snoc fw gRecordAudio endW envs e :
  forall s s',
    whileLoop fw gRecordAudio endW (envs ++ [e]) s = (s', Val Next) ->
    exists s1, whileLoop fw gRecordAudio endW envs s = (s1, Val Next) /\
               loopIteration fw gRecordAudio endW e s1 = (s', Val Next).
Proof.
  induction envs as [|e0 envs IH]; intros s s' H; simpl in *.
  - exists s. split; [reflexivity|].
    destruct (loopIteration fw gRecordAudio endW e s) as [s1 [[|]|x]];
      try discriminate; exact H.
  - destruct (loopIteration fw gRecordAudio endW e0 s) as [s1 [[|]|x]];
      try discriminate. apply IH. exact H.
Qed.

(** A run goes on from where a shorter run stopped. *)
Lemma whileLoop_app fw gRecordAudio endW envs more :
  forall s s1,
    whileLoop fw gRecordAudio endW envs s = (s1, Val Next) ->
    whileLoop fw gRecordAudio endW (envs ++ more) s =
    whileLoop fw gRecordAudio endW more s1.
Proof.
  induction envs as [|e0 envs IH]; intros s s1 H; simpl in *.
  - inversion H. reflexivity.
  - destruct (loopIteration fw gRecordAudio endW e0 s) as [s2 [[|]|x]];
      try discriminate. apply IH. exact H.
Qed.

(** A run reported as [Recording] got through the setup and every
    iteration. *)
Lemma runEncoder_recording fw gRecordAudio limit stop se envs s :
  runEncoder fw gRecordAudio limit stop se envs = (s, Recording) ->
  exists s0,
    setup gRecordAudio se (initialState stop) = (s0, Val tt) /\
    whileLoop fw gRecordAudio (endWhen fw limit se) envs s0 = (s, Val Next).
Proof.
  unfold runEncoder. intros H.
  destruct (setup gRecordAudio se (initialState stop)) as [s0 [[]|x]];
    [|discriminate].
  exists s0. split; [reflexivity|].
  destruct (whileLoop fw gRecordAudio (endWhen fw limit se) envs s0)
    as [s1 [[|]|x]]; inversion H; reflexivity.
Qed.

Lemma loopBody_eq fw g e s :
  loopBody fw g e s =
  match videoOutput fw g (videoOut e)
          (after_signal (sigBody e) (after_audioInput g (audioIn e) s)) with
  | (s1, Val _) =>
      if g then audioOutput fw (audioOut e) (after_signal (sigBetween e) s1)
      else (after_signal (sigBetween e) s1, Val tt)
  | (s1, Halt x) => (s1, Halt x)
  end.
Proof.
  unfold loopBody, after_audioInput.
  destruct g.
  - unfold bind at 1. destruct (audioIn e) as [a|]; simpl;
      unfold bind at 1; rewrite deliver_eq; unfold bind at 1;
      match goal with |- context [videoOutput ?a ?b ?c ?d] =>
        destruct (videoOutput a b c d) as [s1 [[]|x]] end;
      try reflexivity; unfold bind; rewrite deliver_eq; reflexivity.
  - unfold bind at 1. simpl.
    unfold bind at 1; rewrite deliver_eq; unfold bind at 1.
    destruct (videoOutput fw false (videoOut e) (after_signal (sigBody e) s))
      as [s1 [[]|x]]; try reflexivity.
    unfold bind; rewrite deliver_eq; reflexivity.
Qed.

(** ** The audio reconciler against the rule of the specification *)

Lemma reconcile_all_spec_app last r1 r2 :
  reconcile_all_spec last (r1 ++ r2) =
  reconcile_all_spec last r1 ++
  reconcile_all_spec (fold_left reconcile_spec r1 last) r2.
Proof.
  revert last. induction r1 as [|r r1 IH]; intros last; simpl; [reflexivity|].
  rewrite IH. reflexivity.
Qed.

Lemma audioPts_after_signal sig s :
  audioPts (calls (after_signal sig s)) = audioPts (calls s) /\
  lastAudioPtsUs (after_signal sig s) = lastAudioPtsUs s.
Proof.
  destruct sig; simpl; [|auto]. rewrite audioPts_app, app_nil_r. auto.
Qed.

Lemma audioPts_after_audioInput g i s :
  audioPts (calls (after_audioInput g i s)) = audioPts (calls s) /\
  lastAudioPtsUs (after_audioInput g i s) = lastAudioPtsUs s.
Proof.
  destruct g, i; simpl; auto. rewrite audioPts_app, app_nil_r. auto.
Qed.

Lemma audioPts_videoOutput fw g e s :
  audioPts (calls (fst (videoOutput fw g e s))) = audioPts (calls s) /\
  lastAudioPtsUs (fst (videoOutput fw g e s)) = lastAudioPtsUs s.
Proof.
  unfold videoOutput. unfold_monad.
  destruct (dequeued e); simpl; split_cases;
    rewrite ?audioPts_app; simpl; rewrite ?app_nil_r; auto.
Qed.

Lemma reconcile_spec_cases last pts :
  reconcile_spec last pts =
  let clamped := if pts <? 0 then 0 else pts in
  if clamped <? last then last + kAacFrameTimeUs else clamped.
Proof.
  unfold reconcile_spec, kAacFrameTimeUs. simpl.
  destruct (pts <? 0) eqn:E; to_prop.
  - rewrite Z.max_l by lia. reflexivity.
  - rewrite Z.max_r by lia. reflexivity.
Qed.

Lemma int64_add_in_range a b :
  - INT64_MAX - 1 <= a + b <= INT64_MAX -> int64_add a b = a + b.
Proof.
  intros H. unfold int64_add, INT64_MODULUS, INT64_MAX in *.
  rewrite Z.mod_small by lia. lia.
Qed.

Lemma reconcile_spec_nonneg last pts :
  0 <= last -> 0 <= reconcile_spec last pts.
Proof.
  intros H. unfold reconcile_spec. cbv zeta.
  destruct (Z.max 0 pts <? last); lia.
Qed.

Lemma fold_reconcile_spec_nonneg l :
  forall last, 0 <= last -> 0 <= fold_left reconcile_spec l last.
Proof.
  induction l as [|p l IH]; intros last H; simpl; [exact H|].
  apply IH, reconcile_spec_nonneg, H.
Qed.

(** Where the rule of the specification stays in the range of [int64_t], the
    code computes the value of the rule. *)
Lemma reconciled_spec last pts :
  0 <= last -> reconcile_spec last pts <= INT64_MAX ->
  reconciled last pts = reconcile_spec last pts.
Proof.
  intros H0 H. rewrite reconcile_spec_cases in *. unfold reconciled.
  cbv zeta in *.
  destruct ((if pts <? 0 then 0 else pts) <? last); [|reflexivity].
  apply int64_add_in_range. unfold kAacFrameTimeUs, INT64_MAX in *. lia.
Qed.

(** What [audioOutput] does to the audio timestamps, however it ends: nothing,
    or it writes the reconciled timestamp of the buffer and keeps it in
    [lastAudioPtsUs]. *)
Lemma audioOutput_view fw e s :
  (audioPts (calls (fst (audioOutput fw e s))) = audioPts (calls s) /\
   lastAudioPtsUs (fst (audioOutput fw e s)) = lastAudioPtsUs s /\
   (snd (audioOutput fw e s) = Val tt -> is_data fw e = false)) \/
  (exists b o sz p f,
     dequeued e = GotBuffer b o sz p f /\ is_data fw e = true /\
     audioPts (calls (fst (audioOutput fw e s))) =
       audioPts (calls s) ++ [reconciled (lastAudioPtsUs s) p] /\
     lastAudioPtsUs (fst (audioOutput fw e s)) =
       reconciled (lastAudioPtsUs s) p).
Proof.
  unfold audioOutput, is_data, reconciled. unfold_monad.
  destruct (dequeued e) as [b o sz p f| | | | |] eqn:D; simpl; split_cases;
    first
      [ left; rewrite ?audioPts_app; simpl; rewrite ?app_nil_r;
        repeat split; (reflexivity || discriminate)
      | right; exists b, o, sz, p, f;
        rewrite ?audioPts_app; simpl; rewrite ?app_nil_r;
        repeat match goal with H : _ = _ |- _ => rewrite H end;
        repeat split; reflexivity ].
Qed.

Lemma audioPts_audioOutput fw e s s' :
  audioOutput fw e s = (s', Val tt) ->
  forall ie, audioOut ie = e ->
  0 <= lastAudioPtsUs s ->
  in_int64_range
    (reconcile_all_spec (lastAudioPtsUs s) (reportedAudioPts fw ie)) ->
  audioPts (calls s') =
    audioPts (calls s) ++
    reconcile_all_spec (lastAudioPtsUs s) (reportedAudioPts fw ie) /\
  lastAudioPtsUs s' =
    fold_left reconcile_spec (reportedAudioPts fw ie) (lastAudioPtsUs s).
Proof.
  intros H ie Hie H0 R. unfold reportedAudioPts in *. rewrite Hie in *.
  destruct (audioOutput_view fw e s)
    as [(V1 & V2 & V3)|(b & o & sz & p & f & D & I & V1 & V2)];
    rewrite H in *; cbn [fst snd] in *.
  - rewrite (V3 eq_refl).
    destruct (dequeued e); simpl; rewrite app_nil_r; auto.
  - rewrite D, I in *. simpl in *.
    inversion R as [|? ? R1 _]; subst.
    rewrite reconciled_spec in V1, V2 by assumption. auto.
Qed.

Lemma audioPts_loopIteration fw endW e s s' :
  loopIteration fw true endW e s = (s', Val Next) ->
  0 <= lastAudioPtsUs s ->
  in_int64_range
    (reconcile_all_spec (lastAudioPtsUs s) (reportedAudioPts fw e)) ->
  audioPts (calls s') =
    audioPts (calls s) ++
    reconcile_all_spec (lastAudioPtsUs s) (reportedAudioPts fw e) /\
  lastAudioPtsUs s' =
    fold_left reconcile_spec (reportedAudioPts fw e) (lastAudioPtsUs s).
Proof.
  intros H H0 R. apply loopIteration_next in H.
  destruct H as (_ & s1 & s2 & Hv & -> & Ha).
  destruct (audioPts_after_signal (sigBetween e) s1) as [B1 B2].
  pose proof (audioPts_videoOutput fw true (videoOut e)
                (after_signal (sigBody e)
                   (after_audioInput true (audioIn e)
                      (after_signal (sigHead e) s)))) as [V1 V2].
  rewrite Hv in V1, V2. cbn [fst] in V1, V2.
  destruct (audioPts_after_signal (sigBody e)
              (after_audioInput true (audioIn e)
                 (after_signal (sigHead e) s))) as [C1 C2].
  destruct (audioPts_after_audioInput true (audioIn e)
              (after_signal (sigHead e) s)) as [D1 D2].
  destruct (audioPts_after_signal (sigHead e) s) as [E1 E2].
  assert (lastAudioPtsUs (after_signal (sigBetween e) s1) = lastAudioPtsUs s)
    as L by (rewrite B2, V2, C2, D2, E2; reflexivity).
  apply audioPts_audioOutput with (ie := e) in Ha;
    [|reflexivity|rewrite L; exact H0|rewrite L; exact R].
  destruct Ha as [Ha1 Ha2].
  rewrite Ha1, Ha2, L, B1, V1, C1, D1, E1. auto.
Qed.

Lemma audioPts_whileLoop fw endW envs :
  forall s s',
    whileLoop fw true endW envs s = (s', Val Next) ->
    0 <= lastAudioPtsUs s ->
    in_int64_range
      (reconcile_all_spec (lastAudioPtsUs s) (audioReported fw envs)) ->
    audioPts (calls s') =
      audioPts (calls s) ++
      reconcile_all_spec (lastAudioPtsUs s) (audioReported fw envs) /\
    lastAudioPtsUs s' =
      fold_left reconcile_spec (audioReported fw envs) (lastAudioPtsUs s).
Proof.
  induction envs as [|e envs IH]; intros s s' H H0 R; simpl in *.
  - inversion H; subst. rewrite app_nil_r. auto.
  - destruct (loopIteration fw true endW e s) as [s1 [[|]|x]] eqn:E;
      try discriminate.
    unfold audioReported in *. simpl in R.
    unfold in_int64_range in R. rewrite reconcile_all_spec_app in R.
    apply Forall_app in R. destruct R as [R1 R2].
    apply audioPts_loopIteration in E; [|exact H0|exact R1].
    destruct E as [E1 E2].
    apply IH in H;
      [|rewrite E2; apply fold_reconcile_spec_nonneg, H0
       |rewrite E2; exact R2].
    destruct H as [H1 H2]. simpl.
    rewrite reconcile_all_spec_app, fold_left_app, H1, H2, E1, E2.
    rewrite app_assoc. auto.
Qed.

Lemma setup_audio_view g se stop s :
  setup g se (initialState stop) = (s, Val tt) ->
  audioPts (calls s) = [] /\ lastAudioPtsUs s = 0.
Proof.
  unfold setup. unfold_monad. intros H.
  split_in H; inversion H; subst; auto.
Qed.

(** C4.  In a session with audio that is still recording, as long as the
    values of the rule of the specification fit [int64_t], the audio
    timestamps handed to the muxer are exactly those the rule yields on the
    timestamps the audio encoder reported with its data buffers: a negative
    timestamp is clamped to zero, a timestamp below the last emitted one is
    replaced by last-emitted + 23219, and [lastAudioPtsUs] is the last emitted
    value. *)
Theorem audio_reconciler_refines_spec :
  forall fw gTimeLimitSec stop se envs s,
    runEncoder fw true gTimeLimitSec stop se envs = (s, Recording) ->
    in_int64_range (reconcile_all_spec 0 (audioReported fw envs)) ->
    audioPts (calls s) = reconcile_all_spec 0 (audioReported fw envs) /\
    lastAudioPtsUs s = fold_left reconcile_spec (audioReported fw envs) 0.
Proof.
  intros fw limit stop se envs s H R.
  apply runEncoder_recording in H. destruct H as (s0 & Hs & Hw).
  apply setup_audio_view in Hs. destruct Hs as [S1 S2].
  apply audioPts_whileLoop in Hw; [|rewrite S2; lia|rewrite S2; exact R].
  rewrite S1, S2 in Hw. exact Hw.
Qed.

(** ** Every dequeued output buffer goes back to its encoder *)

Lemma videoOutput_calls fw g e s s' :
  videoOutput fw g e s = (s', Val tt) ->
  exists new, calls s' = calls s ++ new /\
    filter (about Audio) new = [] /\
    forall b o sz p f, dequeued e = GotBuffer b o sz p f ->
      releaseResult e = NO_ERROR /\
      buffer_calls fw Video e b f (filter (about Video) new).
Proof.
  intros H. unfold videoOutput in H. unfold_monad. unfold buffer_calls, is_data.
  destruct (dequeued e) eqn:D; simpl in *; split_in H;
    inversion H; subst; clear H; simpl; solve_new_calls; simpl;
    (split; [reflexivity|]); intros b o sz p f' E; inversion E; subst;
    (split; [reflexivity|]);
    repeat match goal with H : _ = _ |- _ => rewrite H end; simpl;
    try (do 2 eexists; reflexivity);
    try (exists 0, 0; reflexivity).
Qed.

Lemma audioOutput_calls fw e s s' :
  audioOutput fw e s = (s', Val tt) ->
  exists new, calls s' = calls s ++ new /\
    filter (about Video) new = [] /\
    forall b o sz p f, dequeued e = GotBuffer b o sz p f ->
      releaseResult e = NO_ERROR /\
      buffer_calls fw Audio e b f (filter (about Audio) new).
Proof.
  intros H. unfold audioOutput in H. unfold_monad. unfold buffer_calls, is_data.
  destruct (dequeued e) eqn:D; simpl in *; split_in H;
    inversion H; subst; clear H; simpl; solve_new_calls; simpl;
    (split; [reflexivity|]); intros b o sz p f' E; inversion E; subst;
    (split; [reflexivity|]);
    repeat match goal with H : _ = _ |- _ => rewrite H end; simpl;
    try (do 2 eexists; reflexivity);
    try (exists 0, 0; reflexivity).
Qed.

Lemma after_signal_calls sig s :
  exists new, calls (after_signal sig s) = calls s ++ new /\
              forall st, filter (about st) new = [].
Proof.
  destruct sig; simpl.
  - exists [SignalCaught]. split; reflexivity.
  - exists []. split; [symmetry; apply app_nil_r|reflexivity].
Qed.

Lemma after_audioInput_calls g i s :
  exists new, calls (after_audioInput g i s) = calls s ++ new /\
              forall st, filter (about st) new = [].
Proof.
  destruct g, i; simpl;
    try (exists []; split; [symmetry; apply app_nil_r|reflexivity]).
  eexists. split; reflexivity.
Qed.

(** C10.  In an iteration that runs to the end of the loop body (it neither
    leaves the loop at its head nor aborts), every output buffer dequeued from
    an encoder is released to that encoder, successfully, in that same
    iteration: the calls the iteration makes about the stream are one
    [writeSampleData] of that buffer when it is data, followed by exactly one
    [releaseOutputBuffer] of that buffer.  A buffer flagged codec-config or of
    size zero (such as one carrying only the end-of-stream flag) is released
    without being written.  The audio encoder is polled only when audio is
    recorded. *)
Theorem dequeued_buffers_released :
  forall fw gRecordAudio endW e s s',
    loopIteration fw gRecordAudio endW e s = (s', Val Next) ->
    exists new, calls s' = calls s ++ new /\
      forall st b o sz p f,
        st = Video \/ gRecordAudio = true ->
        dequeued (outputOf st e) = GotBuffer b o sz p f ->
        releaseResult (outputOf st e) = NO_ERROR /\
        buffer_calls fw st (outputOf st e) b f (filter (about st) new).
Proof.
  intros fw g endW e s s' H. apply loopIteration_next in H.
  destruct H as (_ & s1 & s2 & Hv & -> & Ha).
  destruct (after_signal_calls (sigHead e) s) as (n1 & E1 & F1).
  destruct (after_audioInput_calls g (audioIn e) (after_signal (sigHead e) s))
    as (n2 & E2 & F2).
  destruct (after_signal_calls (sigBody e)
              (after_audioInput g (audioIn e) (after_signal (sigHead e) s)))
    as (n3 & E3 & F3).
  apply videoOutput_calls in Hv. destruct Hv as (nv & Ev & Fva & Hv).
  destruct (after_signal_calls (sigBetween e) s1) as (n4 & E4 & F4).
  destruct g.
  - apply audioOutput_calls in Ha. destruct Ha as (na & Ea & Fav & Ha).
    exists (n1 ++ n2 ++ n3 ++ nv ++ n4 ++ na). split.
    + rewrite Ea, E4, Ev, E3, E2, E1. rewrite <- !app_assoc. reflexivity.
    + intros st b o sz p f _ D. rewrite !filter_app, F1, F2, F3, F4. simpl.
      destruct st; simpl in D.
      * rewrite Fav, app_nil_r. eapply Hv; exact D.
      * rewrite Fva. simpl. eapply Ha; exact D.
  - inversion Ha; subst s'.
    exists (n1 ++ n2 ++ n3 ++ nv ++ n4). split.
    + rewrite E4, Ev, E3, E2, E1. rewrite <- !app_assoc. reflexivity.
    + intros st b o sz p f [->|X] D; [|discriminate].
      rewrite !filter_app, F1, F2, F3, F4. simpl. rewrite app_nil_r.
      eapply Hv; exact D.
Qed.

(** ** The stop flag across an iteration *)

Lemma flag_after_signal sig s :
  gStopRequested (after_signal sig s) = sig || gStopRequested s.
Proof. destruct sig; reflexivity. Qed.

Lemma flag_after_audioInput g i s :
  gStopRequested (after_audioInput g i s) = gStopRequested s.
Proof. destruct g, i; reflexivity. Qed.

Lemma flag_videoOutput fw g e s s' :
  videoOutput fw g e s = (s', Val tt) ->
  gStopRequested s' = if saw_eos fw e then false else gStopRequested s.
Proof.
  intros H. unfold videoOutput in H. unfold_monad. unfold saw_eos.
  destruct (dequeued e); simpl in *; split_in H;
    inversion H; subst; clear H; simpl;
    repeat match goal with H : _ = _ |- _ => rewrite H end; reflexivity.
Qed.

Lemma flag_audioOutput fw e s s' :
  audioOutput fw e s = (s', Val tt) ->
  gStopRequested s' = if saw_eos fw e then false else gStopRequested s.
Proof.
  intros H. unfold audioOutput in H. unfold_monad. unfold saw_eos.
  destruct (dequeued e); simpl in *; split_in H;
    inversion H; subst; clear H; simpl;
    repeat match goal with H : _ = _ |- _ => rewrite H end; reflexivity.
Qed.

Lemma flag_loopIteration fw g endW e s s' :
  loopIteration fw g endW e s = (s', Val Next) ->
  gStopRequested s' = flag_after_body fw g e.
Proof.
  intros H. apply loopIteration_next in H.
  destruct H as (Hh & s1 & s2 & Hv & -> & Ha).
  unfold left_at_head in Hh. apply orb_false_iff in Hh. destruct Hh as [Hh _].
  apply flag_videoOutput in Hv.
  rewrite flag_after_signal, flag_after_audioInput, Hh, orb_false_r in Hv.
  unfold flag_after_body. destruct g; simpl.
  - apply flag_audioOutput in Ha. rewrite Ha, flag_after_signal, Hv.
    destruct (saw_eos fw (audioOut e)); [reflexivity|apply orb_comm].
  - inversion Ha; subst s'. rewrite flag_after_signal, Hv. apply orb_comm.
Qed.

Lemma loopIteration_not_break fw g endW e s :
  left_at_head endW e s = false ->
  snd (loopIteration fw g endW e s) <> Val Break.
Proof.
  intros Hh. rewrite loopIteration_body by exact Hh. unfold bind at 1.
  destruct (loopBody fw g e (after_signal (sigHead e) s)) as [s1 [[]|x]];
    simpl; discriminate.
Qed.

Lemma videoOutput_handled fw g e s :
  handled fw (videoTrackIdx s) e ->
  snd (videoOutput fw g e s) = Val tt.
Proof.
  unfold handled, is_data, videoOutput. unfold_monad.
  destruct (dequeued e) as [b o sz p f| | | | |]; simpl;
    try contradiction; try reflexivity.
  intros [W R]. rewrite R.
  destruct (negb (is_set f (BUFFER_FLAG_CODECCONFIG fw)) && negb (sz =? 0))
    eqn:D.
  - destruct (W eq_refl) as [T Wr]. apply Z.eqb_neq in T.
    apply andb_true_iff in D. destruct D as [D1 D2].
    apply negb_true_iff in D1. rewrite D1, D2, T, Wr. simpl.
    destruct (is_set f (BUFFER_FLAG_EOS fw)); reflexivity.
  - destruct (is_set f (BUFFER_FLAG_CODECCONFIG fw)); simpl in *.
    + destruct (is_set f (BUFFER_FLAG_EOS fw)); reflexivity.
    + apply negb_false_iff in D. rewrite D. simpl.
      destruct (is_set f (BUFFER_FLAG_EOS fw)); reflexivity.
Qed.

Lemma audioOutput_handled fw e s :
  handled fw (audioTrackIdx s) e ->
  snd (audioOutput fw e s) = Val tt.
Proof.
  unfold handled, is_data, audioOutput. unfold_monad.
  destruct (dequeued e) as [b o sz p f| | | | |]; simpl;
    try contradiction; try reflexivity.
  intros [W R]. rewrite R.
  destruct (negb (is_set f (BUFFER_FLAG_CODECCONFIG fw)) && negb (sz =? 0))
    eqn:D.
  - destruct (W eq_refl) as [T Wr]. apply Z.eqb_neq in T.
    apply andb_true_iff in D. destruct D as [D1 D2].
    apply negb_true_iff in D1. rewrite D1, D2, T, Wr. simpl.
    destruct (is_set f (BUFFER_FLAG_EOS fw)); reflexivity.
  - destruct (is_set f (BUFFER_FLAG_CODECCONFIG fw)); simpl in *.
    + destruct (is_set f (BUFFER_FLAG_EOS fw)); reflexivity.
    + apply negb_false_iff in D. rewrite D. simpl.
      destruct (is_set f (BUFFER_FLAG_EOS fw)); reflexivity.
Qed.

Lemma videoOutput_buffer_audioTrackIdx fw g e s :
  handled fw (videoTrackIdx s) e ->
  audioTrackIdx (fst (videoOutput fw g e s)) = audioTrackIdx s.
Proof.
  unfold handled, videoOutput. unfold_monad.
  destruct (dequeued e); simpl; try contradiction; try reflexivity.
  intros _. split_cases; reflexivity.
Qed.

(** An iteration that is entered goes on to the next one when both outputs
    are handled without an error, whatever flags the buffers carry. *)
Lemma loopIteration_handled fw g endW e s :
  left_at_head endW e s = false ->
  handled fw (videoTrackIdx s) (videoOut e) ->
  (g = true -> handled fw (audioTrackIdx s) (audioOut e)) ->
  snd (loopIteration fw g endW e s) = Val Next.
Proof.
  intros Hh Hv Ha.
  rewrite loopIteration_body by exact Hh. unfold bind.
  rewrite loopBody_eq.
  set (s0 := after_signal (sigBody e)
               (after_audioInput g (audioIn e)
                  (after_signal (sigHead e) s))).
  assert (videoTrackIdx s0 = videoTrackIdx s /\
          audioTrackIdx s0 = audioTrackIdx s) as [T1 T2].
  { unfold s0, after_signal, after_audioInput.
    destruct (sigBody e), g, (audioIn e), (sigHead e); split; reflexivity. }
  rewrite <- T1 in Hv.
  pose proof (videoOutput_handled fw g (videoOut e) s0 Hv) as V.
  pose proof (videoOutput_buffer_audioTrackIdx fw g (videoOut e) s0 Hv) as A.
  destruct (videoOutput fw g (videoOut e) s0) as [s1 [[]|x]];
    cbn [fst snd] in *; [|discriminate].
  destruct g; [|reflexivity].
  assert (audioTrackIdx (after_signal (sigBetween e) s1) = audioTrackIdx s)
    as T3 by (rewrite <- T2, <- A; destruct (sigBetween e); reflexivity).
  specialize (Ha eq_refl). rewrite <- T3 in Ha.
  pose proof (audioOutput_handled fw (audioOut e) _ Ha) as O.
  destruct (audioOutput fw (audioOut e) (after_signal (sigBetween e) s1))
    as [s2 [[]|y]]; cbn [snd] in *; [reflexivity|discriminate].
Qed.

(** C6.  The loop is left (the RUNNING to STOPPED transition) in exactly one
    way: at the head of an iteration, when the stop flag is up as the loop
    condition is evaluated or the clock is past the deadline.  No flag of a
    dequeued buffer takes part in that test.  An iteration that is entered
    and whose buffers are handled without an error of a collaborator goes on
    to the next iteration whatever flags the buffers carry, end-of-stream
    included; the stop flag it carries to the next test is the one computed
    by [flag_after_body]: releasing a buffer flagged end-of-stream sets it to
    false. *)
Theorem end_of_stream_never_leaves_loop :
  forall fw gRecordAudio endW e s,
    let r := loopIteration fw gRecordAudio endW e s in
    (snd r = Val Break <-> left_at_head endW e s = true) /\
    (snd r = Val Next ->
     gStopRequested (fst r) = flag_after_body fw gRecordAudio e) /\
    (left_at_head endW e s = false ->
     handled fw (videoTrackIdx s) (videoOut e) ->
     (gRecordAudio = true -> handled fw (audioTrackIdx s) (audioOut e)) ->
     snd r = Val Next /\
     forall rest,
       whileLoop fw gRecordAudio endW (e :: rest) s =
       whileLoop fw gRecordAudio endW rest (fst r)).
Proof.
  intros fw g endW e s r. subst r. split; [split|split].
  - intros H. destruct (left_at_head endW e s) eqn:Hh; [reflexivity|].
    exfalso. exact (loopIteration_not_break fw g endW e s Hh H).
  - intros Hh. rewrite loopIteration_head by exact Hh. reflexivity.
  - intros H. apply (flag_loopIteration fw g endW e s).
    destruct (loopIteration fw g endW e s) as [s' r]. simpl in *.
    rewrite H. reflexivity.
  - intros Hh Hv Ha.
    pose proof (loopIteration_handled fw g endW e s Hh Hv Ha) as N.
    split; [exact N|]. intros rest. simpl.
    destruct (loopIteration fw g endW e s) as [s' r]. simpl in *.
    rewrite N. reflexivity.
Qed.

(** ** Cancellation *)

Lemma setup_flag g se stop s :
  setup g se (initialState stop) = (s, Val tt) -> gStopRequested s = false.
Proof.
  unfold setup. unfold_monad. intros H.
  split_in H; inversion H; subst; reflexivity.
Qed.

Lemma flag_whileLoop fw g endW envs e s0 s :
  gStopRequested s0 = false ->
  whileLoop fw g endW envs s0 = (s, Val Next) ->
  left_at_head endW e s = true <->
  (stop_raised fw g envs e || (endW <? headClockNs e)) = true.
Proof.
  intros H0 H. unfold left_at_head, stop_raised.
  rewrite flag_after_signal.
  assert (gStopRequested s =
          match rev envs with
          | [] => false
          | e1 :: _ => flag_after_body fw g e1
          end) as ->.
  { destruct (rev envs) as [|e1 l] eqn:E.
    - apply (f_equal (@rev _)) in E. rewrite rev_involutive in E. subst envs.
      inversion H; subst. exact H0.
    - apply (f_equal (@rev _)) in E. rewrite rev_involutive in E. subst envs.
      simpl in H. apply whileLoop_snoc in H. destruct H as (s1 & _ & H).
      eapply flag_loopIteration; exact H. }
  rewrite (orb_comm (sigHead e)). reflexivity.
Qed.

(** C5 (amended).  The stop flag is looked at once per iteration, when the
    loop condition is evaluated.  If the flag is up at the head of an
    iteration (the signal was delivered there, or during the iteration before
    with no end-of-stream buffer released after it), the loop is left at that
    head: [runEncoder] makes no further call on encoders or muxer, so no
    [writeSampleData], stops the audio recorder when audio is recorded, and
    returns NO_ERROR; [recordScreen] then stops the muxer. *)
Theorem stop_flag_leaves_loop_at_next_head :
  forall fw gRecordAudio gTimeLimitSec stop se envs e rest s,
    runEncoder fw gRecordAudio gTimeLimitSec stop se envs = (s, Recording) ->
    stop_raised fw gRecordAudio envs e = true ->
    let r := runEncoder fw gRecordAudio gTimeLimitSec stop se
                        (envs ++ e :: rest) in
    snd r = Completed /\
    calls (fst r) =
      calls s ++ (if sigHead e then [SignalCaught] else [])
              ++ (if gRecordAudio then [RecorderStop] else []) /\
    In MuxerStop (recordScreenAfter gRecordAudio r).
Proof.
  intros fw g limit stop se envs e rest s H Hr r. subst r.
  apply runEncoder_recording in H. destruct H as (s0 & Hs & Hw).
  assert (left_at_head (endWhen fw limit se) e s = true) as Hh.
  { eapply flag_whileLoop; [eapply setup_flag; exact Hs|exact Hw|].
    rewrite Hr. reflexivity. }
  unfold runEncoder. rewrite Hs.
  rewrite (whileLoop_app _ _ _ _ _ _ _ Hw). simpl.
  rewrite loopIteration_head by exact Hh. simpl.
  assert (calls (after_signal (sigHead e) s) =
          calls s ++ (if sigHead e then [SignalCaught] else [])) as Hc.
  { destruct (sigHead e); simpl; [reflexivity|symmetry; apply app_nil_r]. }
  split; [reflexivity|]. split.
  - destruct g; simpl; rewrite Hc, <- ?app_assoc, ?app_nil_r; reflexivity.
  - apply in_or_app. right. simpl. right. right.
    destruct g; simpl; auto.
Qed.

(** ** Data before registration, and repeated format changes *)

Lemma count_format_changes_app st l1 l2 :
  count_format_changes st (l1 ++ l2) =
  (count_format_changes st l1 + count_format_changes st l2)%nat.
Proof. unfold count_format_changes. rewrite filter_app, length_app. reflexivity. Qed.





Lemma before_video_tracks g e s :
  videoTrackIdx (before_video g e s) = videoTrackIdx s /\
  audioTrackIdx (before_video g e s) = audioTrackIdx s.
Proof.
  unfold before_video, after_signal, after_audioInput.
  destruct (sigBody e), g, (audioIn e), (sigHead e); auto.
Qed.


Lemma runEncoder_halt fw g limit stop se envs e rest s s' x :
  runEncoder fw g limit stop se envs = (s, Recording) ->
  loopBody fw g e (after_signal (sigHead e) s) = (s', Halt x) ->
  left_at_head (endWhen fw limit se) e s = false ->
  runEncoder fw g limit stop se (envs ++ e :: rest) = (s', Aborted x).
Proof.
  intros H Hb Hh. apply runEncoder_recording in H.
  destruct H as (s0 & Hs & Hw).
  unfold runEncoder. rewrite Hs, (whileLoop_app _ _ _ _ _ _ _ Hw). simpl.
  rewrite loopIteration_body by exact Hh. unfold bind. rewrite Hb. reflexivity.
Qed.


(** ** Audio timestamps never go back, within the range of [int64_t]

    Nothing guards the addition [lastAudioPtsUs + 23219].  With reported
    timestamps bounded by [bound], a session of [n] iterations keeps
    [lastAudioPtsUs] at or below [bound + 23219 * n]; as long as that is at
    most INT64_MAX the sum does not wrap, and the timestamps written do not
    go back. *)

Lemma audio_within_weaken c c' s :
  c <= c' -> audio_within c s -> audio_within c' s.
Proof.
  intros Hc (M & N & L). split; [exact M|]. split; [exact N|lia].
Qed.

Lemma audio_within_same c s s' :
  audioPts (calls s') = audioPts (calls s) ->
  lastAudioPtsUs s' = lastAudioPtsUs s ->
  audio_within c s -> audio_within c s'.
Proof.
  unfold audio_within, audio_monotone. intros -> ->. auto.
Qed.

Lemma audio_within_step c c' s s' out :
  audioPts (calls s') = audioPts (calls s) ++ [out] ->
  lastAudioPtsUs s' = out ->
  lastAudioPtsUs s <= out <= c' ->
  audio_within c s -> audio_within c' s'.
Proof.
  unfold audio_within, audio_monotone.
  intros -> -> Ho ((S & B) & N & L). repeat split.
  - apply StronglySorted_snoc; [exact S|].
    eapply Forall_impl; [|exact B]. simpl. intros; lia.
  - apply Forall_snoc; [|lia].
    eapply Forall_impl; [|exact B]. simpl. intros; lia.
  - apply Forall_snoc; [exact N|lia].
  - lia.
  - lia.
Qed.

Lemma reconciled_bounds last p bound c :
  0 <= last <= c -> p <= bound -> bound <= c + kAacFrameTimeUs ->
  c + kAacFrameTimeUs <= INT64_MAX ->
  last <= reconciled last p <= c + kAacFrameTimeUs.
Proof.
  intros Hl Hp Hb Hc. unfold reconciled. cbv zeta.
  destruct (p <? 0) eqn:E0;
    destruct (_ <? last) eqn:E1; to_prop;
    rewrite ?int64_add_in_range
      by (unfold kAacFrameTimeUs, INT64_MAX in *; lia);
    unfold kAacFrameTimeUs in *; lia.
Qed.

Lemma audio_within_audioOutput fw e s bound c :
  (forall b o sz p f, dequeued e = GotBuffer b o sz p f -> p <= bound) ->
  bound <= c + kAacFrameTimeUs ->
  c + kAacFrameTimeUs <= INT64_MAX ->
  audio_within c s ->
  audio_within (c + kAacFrameTimeUs) (fst (audioOutput fw e s)).
Proof.
  intros Hb Hc Hm W.
  destruct (audioOutput_view fw e s)
    as [(V1 & V2 & _)|(b & o & sz & p & f & D & _ & V1 & V2)].
  - apply audio_within_weaken with (c := c);
      [unfold kAacFrameTimeUs; lia|].
    exact (audio_within_same c s _ V1 V2 W).
  - apply (audio_within_step c _ s _ _ V1 V2); [|exact W].
    apply reconciled_bounds with (bound := bound); try assumption.
    + apply W.
    + exact (Hb _ _ _ _ _ D).
Qed.

Lemma audio_within_loopIteration fw g endW e s bound c :
  audio_pts_at_most bound e ->
  bound <= c + kAacFrameTimeUs ->
  c + kAacFrameTimeUs <= INT64_MAX ->
  audio_within c s ->
  audio_within (c + kAacFrameTimeUs) (fst (loopIteration fw g endW e s)).
Proof.
  intros Hb Hc Hm W.
  assert (forall t, audio_within c t ->
                    audio_within (c + kAacFrameTimeUs) t) as Up
    by (intros t; apply audio_within_weaken; unfold kAacFrameTimeUs; lia).
  assert (forall sig t, audio_within c t -> audio_within c (after_signal sig t))
    as Sg.
  { intros sig t. destruct (audioPts_after_signal sig t) as [A B].
    apply audio_within_same; assumption. }
  assert (forall i t, audio_within c t ->
                      audio_within c (after_audioInput g i t)) as In.
  { intros i t. destruct (audioPts_after_audioInput g i t) as [A B].
    apply audio_within_same; assumption. }
  destruct (left_at_head endW e s) eqn:Hh.
  - rewrite loopIteration_head by exact Hh. simpl. apply Up, Sg, W.
  - rewrite loopIteration_body by exact Hh. unfold bind.
    rewrite loopBody_eq.
    pose proof (audioPts_videoOutput fw g (videoOut e)
                  (after_signal (sigBody e)
                     (after_audioInput g (audioIn e)
                        (after_signal (sigHead e) s)))) as [V1 V2].
    assert (audio_within c
              (fst (videoOutput fw g (videoOut e)
                      (after_signal (sigBody e)
                         (after_audioInput g (audioIn e)
                            (after_signal (sigHead e) s)))))) as V.
    { apply (audio_within_same c _ _ V1 V2), Sg, In, Sg, W. }
    clear V1 V2.
    destruct (videoOutput fw g (videoOut e)
                (after_signal (sigBody e)
                   (after_audioInput g (audioIn e)
                      (after_signal (sigHead e) s)))) as [s1 [[]|x]];
      cbn [fst] in V.
    + destruct g.
      * pose proof (audio_within_audioOutput fw (audioOut e)
                      (after_signal (sigBetween e) s1) bound c Hb Hc Hm
                      (Sg _ _ V)) as A.
        destruct (audioOutput fw (audioOut e) (after_signal (sigBetween e) s1))
          as [s2 [[]|y]]; exact A.
      * simpl. apply Up, Sg, V.
    + simpl. apply Up, V.
Qed.

Lemma audio_within_whileLoop fw g endW bound envs :
  forall c s,
    Forall (audio_pts_at_most bound) envs ->
    bound <= c ->
    c + kAacFrameTimeUs * Z.of_nat (length envs) <= INT64_MAX ->
    audio_within c s ->
    audio_within (c + kAacFrameTimeUs * Z.of_nat (length envs))
                 (fst (whileLoop fw g endW envs s)).
Proof.
  induction envs as [|e envs IH]; intros c s Hb Hc Hm W.
  - cbn [length whileLoop fst]. change (Z.of_nat 0) with 0.
    rewrite Z.mul_0_r, Z.add_0_r. exact W.
  - inversion Hb as [|? ? He Hb']; subst.
    simpl length in *. rewrite Nat2Z.inj_succ in *.
    assert (0 <= Z.of_nat (length envs)) as Hn by lia.
    pose proof (audio_within_loopIteration fw g endW e s bound c He
                  ltac:(unfold kAacFrameTimeUs; lia)
                  ltac:(unfold kAacFrameTimeUs in *; lia) W) as I.
    cbn [whileLoop].
    destruct (loopIteration fw g endW e s) as [s1 [[|]|x]]; cbn [fst] in *.
    + apply audio_within_weaken with (c := c + kAacFrameTimeUs);
        [unfold kAacFrameTimeUs; lia|exact I].
    + replace (c + kAacFrameTimeUs * Z.succ (Z.of_nat (length envs)))
        with ((c + kAacFrameTimeUs)
              + kAacFrameTimeUs * Z.of_nat (length envs)) by lia.
      apply IH; try assumption; unfold kAacFrameTimeUs in *; lia.
    + apply audio_within_weaken with (c := c + kAacFrameTimeUs);
        [unfold kAacFrameTimeUs; lia|exact I].
Qed.

Lemma audio_within_runEncoder fw g limit stop se envs bound :
  Forall (audio_pts_at_most bound) envs ->
  0 <= bound ->
  bound + kAacFrameTimeUs * Z.of_nat (length envs) <= INT64_MAX ->
  audio_within (bound + kAacFrameTimeUs * Z.of_nat (length envs))
               (fst (runEncoder fw g limit stop se envs)).
Proof.
  intros Hb H0 HB. unfold runEncoder.
  assert (audio_within bound (fst (setup g se (initialState stop)))) as S.
  { assert (audioPts (calls (fst (setup g se (initialState stop)))) = [] /\
            lastAudioPtsUs (fst (setup g se (initialState stop))) = 0)
      as [A L].
    { unfold setup. unfold_monad. split_cases; split; reflexivity. }
    unfold audio_within, audio_monotone. rewrite A, L.
    repeat split; (constructor || lia). }
  assert (0 <= Z.of_nat (length envs)) as Hn by lia.
  destruct (setup g se (initialState stop)) as [s0 [[]|x]]; cbn [fst] in *.
  - pose proof (audio_within_whileLoop fw g (endWhen fw limit se) bound envs
                  bound s0 Hb ltac:(lia) HB S) as W.
    destruct (whileLoop fw g (endWhen fw limit se) envs s0)
      as [s1 [[|]|y]]; cbn [fst] in *; try exact W.
    destruct g; [|exact W].
    refine (audio_within_same _ s1 _ _ _ W); simpl;
      [rewrite audioPts_app; simpl; apply app_nil_r|reflexivity].
  - apply audio_within_weaken with (c := bound);
      [unfold kAacFrameTimeUs; lia|exact S].
Qed.

(** C3.  Whatever timestamps at most [bound] the audio encoder reports (zero,
    negative, decreasing or anything else), in a session of [n] loop
    iterations with [bound + 23219 * n <= INT64_MAX] the timestamps of the
    audio samples that [runEncoder] hands to the muxer form a non-decreasing
    sequence over the whole session, however the session ends. *)
Theorem audio_timestamps_nondecreasing :
  forall fw gRecordAudio gTimeLimitSec stop se envs bound,
    Forall (audio_pts_at_most bound) envs ->
    0 <= bound ->
    bound + kAacFrameTimeUs * Z.of_nat (length envs) <= INT64_MAX ->
    StronglySorted Z.le
      (audioPts (calls (fst (runEncoder fw gRecordAudio gTimeLimitSec
                                        stop se envs)))).
Proof.
  intros fw g limit stop se envs bound Hb H0 HB.
  destruct (audio_within_runEncoder fw g limit stop se envs bound Hb H0 HB)
    as ((S & _) & _). exact S.
Qed.

(** X2.  Under the same bound the sum [lastAudioPtsUs + 23219] never leaves
    the range of [int64_t]: no audio timestamp written is negative or above
    [bound + 23219 * n], and neither is [lastAudioPtsUs]. *)
Lemma no_signed_overflow_when_bounded fw g limit stop se envs bound :
  Forall (audio_pts_at_most bound) envs ->
  0 <= bound ->
  bound + kAacFrameTimeUs * Z.of_nat (length envs) <= INT64_MAX ->
  let s := fst (runEncoder fw g limit stop se envs) in
  let ceiling := bound + kAacFrameTimeUs * Z.of_nat (length envs) in
  Forall (fun p => 0 <= p <= ceiling) (audioPts (calls s)) /\
  0 <= lastAudioPtsUs s <= ceiling.
Proof.
  intros Hb H0 HB. cbv zeta.
  destruct (audio_within_runEncoder fw g limit stop se envs bound Hb H0 HB)
    as ((_ & B) & N & L).
  split; [|exact L].
  rewrite Forall_forall in *. intros p Hp.
  specialize (B p Hp). specialize (N p Hp). simpl in B. lia.
Qed.

(** ** Video timestamps *)

(** C9 (amended).  A video data buffer of a stream whose track index is set
    is written with the monotonic clock reading of that moment in whole
    microseconds (nanoseconds divided by 1000, truncated) when its reported
    timestamp is exactly zero, and with its reported timestamp unchanged
    otherwise.  The substituted value is non-zero and strictly later than the
    session start when the clock reading is at least 1000 ns past the session
    start reading (which is not negative). *)
Theorem video_zero_timestamp_takes_clock :
  forall fw gRecordAudio e s b o sz pts flags se,
    dequeued e = GotBuffer b o sz pts flags ->
    is_data fw e = true ->
    videoTrackIdx s <> -1 ->
    (exists rest,
       calls (fst (videoOutput fw gRecordAudio e s)) =
       calls s ++ WriteSampleData Video b (videoTrackIdx s) (videoPts e pts)
                                  flags :: rest) /\
    (pts <> 0 -> videoPts e pts = pts) /\
    (pts = 0 ->
     0 <= startWhenNsec se -> startWhenNsec se + 1000 <= clockNs e ->
     videoPts e pts <> 0 /\ startWhenNsec se < videoPts e pts * 1000).
Proof.
  intros fw g e s b o sz pts flags se D Hd Ht.
  unfold is_data in Hd. rewrite D in Hd.
  apply andb_true_iff in Hd. destruct Hd as [Hc Hz].
  apply negb_true_iff in Hc. apply Z.eqb_neq in Ht.
  split; [|split].
  - unfold videoOutput, videoPts. unfold_monad. rewrite D, Hc, Hz, Ht. simpl.
    destruct (writeResult e); simpl; [|eexists; reflexivity].
    destruct (releaseResult e); simpl;
      [|rewrite <- app_assoc; eexists; reflexivity].
    destruct (is_set flags (BUFFER_FLAG_EOS fw)); simpl;
      rewrite <- app_assoc; eexists; reflexivity.
  - intros Hp. unfold videoPts. apply Z.eqb_neq in Hp. rewrite Hp. reflexivity.
  - intros -> H0 H1. unfold videoPts. simpl.
    rewrite Z.quot_div_nonneg by lia.
    pose proof (Z.div_mod (clockNs e) 1000 ltac:(lia)) as E.
    pose proof (Z.mod_pos_bound (clockNs e) 1000 ltac:(lia)) as B.
    split; lia.
Qed.

(** ** Starting the muxer *)

Lemma snoc_inv {A} (l pre post : list A) (x y : A) :
  l ++ [x] = pre ++ y :: post ->
  (post = [] /\ pre = l /\ y = x) \/
  (exists post', post = post' ++ [x] /\ l = pre ++ y :: post').
Proof.
  destruct post as [|z post' _] using rev_ind; intros H.
  - left. apply app_inj_tail in H. destruct H; subst; auto.
  - right. exists post'.
    change (pre ++ y :: post' ++ [z]) with (pre ++ (y :: post') ++ [z]) in H.
    rewrite app_assoc in H. apply app_inj_tail in H.
    destruct H; subst; auto.
Qed.

Lemma count_starts_app l1 l2 :
  count_starts (l1 ++ l2) = (count_starts l1 + count_starts l2)%nat.
Proof. unfold count_starts. rewrite filter_app, length_app. reflexivity. Qed.

Lemma count_tracks_app l1 l2 :
  count_tracks (l1 ++ l2) = (count_tracks l1 + count_tracks l2)%nat.
Proof. unfold count_tracks. rewrite filter_app, length_app. reflexivity. Qed.

Lemma count_tracks_by_stream l :
  count_tracks l =
  (count_format_changes Video l + count_format_changes Audio l)%nat.
Proof.
  unfold count_tracks, count_format_changes.
  induction l as [|ev l IH]; simpl; [reflexivity|].
  destruct ev as [| | | | | |[|]| | | | | | |]; simpl; lia.
Qed.

Lemma count_starts_middle pre post :
  (1 <= count_starts (pre ++ MuxerStart :: post))%nat.
Proof. rewrite count_starts_app. unfold count_starts at 2. simpl. lia. Qed.

Lemma registrar_snoc g n l ev :
  not_registration ev = true -> registrar g n l -> registrar g n (l ++ [ev]).
Proof.
  intros Hev [Ha Hr]. unfold registrar.
  assert (count_tracks [ev] = 0%nat) as Ct by (destruct ev; try reflexivity; discriminate).
  assert (count_starts [ev] = 0%nat) as Cs by (destruct ev; try reflexivity; discriminate).
  assert (count_format_changes Audio [ev] = 0%nat) as Cf
      by (destruct ev; try reflexivity; discriminate).
  rewrite count_format_changes_app, count_tracks_app, count_starts_app,
    Ct, Cs, Cf, !Nat.add_0_r.
  split; [exact Ha|]. intros Hle. destruct (Hr Hle) as (Hn & Hs & Hp).
  repeat split; try assumption.
  - apply snoc_inv in H.
    destruct H as [(_ & _ & E)|(post' & _ & E)].
    + subst ev. discriminate.
    + apply (Hp _ _ E).
  - apply snoc_inv in H.
    destruct H as [(_ & _ & E)|(post' & _ & E)].
    + subst ev. discriminate.
    + apply (Hp _ _ E).
Qed.

Lemma registrar_format_change g n l st :
  (st = Audio -> g = true) ->
  registrar g n l ->
  registrar g (uint32_incr n)
    (l ++ AddTrack st ::
       (if Z.of_nat (expected_tracks g) <=? uint32_incr n
        then [MuxerStart] else [])).
Proof.
  intros Hst [Ha Hr]. unfold registrar. split.
  - intros Hg. rewrite count_format_changes_app, (Ha Hg).
    destruct st; [|rewrite (Hst eq_refl) in Hg; discriminate].
    destruct (_ <=? _); reflexivity.
  - rewrite count_tracks_app.
    assert (forall tail, count_tracks (AddTrack st :: tail) =
                         S (count_tracks tail)) as Ct by reflexivity.
    intros Hle.
    assert (count_tracks l < expected_tracks g)%nat as Hlt.
    { rewrite Ct in Hle. lia. }
    destruct (Hr ltac:(lia)) as (Hn & Hs & _).
    assert ((expected_tracks g <=? count_tracks l)%nat = false) as Hf
        by (apply Nat.leb_gt; exact Hlt).
    rewrite Hf in Hs.
    assert (expected_tracks g <= 2)%nat as H2 by (destruct g; simpl; lia).
    assert (uint32_incr n = Z.of_nat (count_tracks l) + 1) as Hi.
    { unfold uint32_incr, UINT32_MODULUS. rewrite Hn.
      apply Z.mod_small. lia. }
    rewrite Hi in *.
    destruct (Z.of_nat (expected_tracks g) <=? Z.of_nat (count_tracks l) + 1)
      eqn:E; to_prop.
    + rewrite Ct. change (count_tracks [MuxerStart]) with 0%nat.
      assert ((expected_tracks g <=? count_tracks l + 1)%nat = true) as ->
          by (apply Nat.leb_le; lia).
      rewrite count_starts_app, Hs.
      split; [lia|]. split; [reflexivity|].
      intros pre post H.
      change (l ++ [AddTrack st; MuxerStart])
        with (l ++ [AddTrack st] ++ [MuxerStart]) in H.
      rewrite app_assoc in H. apply snoc_inv in H.
      destruct H as [(_ & -> & _)|(post' & _ & H)].
      * rewrite count_tracks_app. change (count_tracks [AddTrack st]) with 1%nat.
        split; [lia|]. exists st, l. reflexivity.
      * apply snoc_inv in H.
        destruct H as [(_ & _ & H)|(post'' & _ & H)]; [discriminate|].
        pose proof (count_starts_middle pre post'') as K.
        rewrite <- H in K. lia.
    + rewrite Ct. change (count_tracks []) with 0%nat.
      assert ((expected_tracks g <=? count_tracks l + 1)%nat = false) as ->
          by (apply Nat.leb_gt; lia).
      rewrite count_starts_app, Hs.
      split; [lia|]. split; [reflexivity|].
      intros pre post H. apply snoc_inv in H.
      destruct H as [(_ & _ & H)|(post'' & _ & H)]; [discriminate|].
      pose proof (count_starts_middle pre post'') as K.
      rewrite <- H in K. lia.
Qed.

Lemma registrar_invariant fw g : LoopInvariant fw g (registrar_ok g).
Proof.
  constructor.
  - intros ev s Hev Hs. apply registrar_snoc; [|exact Hs].
    destruct ev; try reflexivity; discriminate.
  - intros b s Hs. exact Hs.
  - intros e s Hs. unfold registrar_ok in *.
    unfold videoOutput. unfold_monad.
    destruct (dequeued e) eqn:D; simpl; try exact Hs.
    + split_cases;
        repeat first [exact Hs | apply registrar_snoc; [reflexivity|]].
    + pose proof (registrar_format_change g _ _ Video
                    ltac:(discriminate) Hs) as K.
      replace (Z.of_nat (expected_tracks g)) with (if g then 2 else 1) in K
        by (destruct g; reflexivity).
      destruct ((if g then 2 else 1) <=? uint32_incr (tracksAdded s));
        simpl; [|exact K].
      destruct (startResult e); simpl; rewrite <- app_assoc; exact K.
    + split_cases; apply registrar_snoc; (reflexivity || exact Hs).
  - intros -> e s Hs. unfold registrar_ok in *.
    unfold audioOutput. unfold_monad.
    destruct (dequeued e) eqn:D; simpl; try exact Hs.
    + split_cases;
        repeat first [exact Hs | apply registrar_snoc; [reflexivity|]].
    + pose proof (registrar_format_change true _ _ Audio
                    ltac:(reflexivity) Hs) as K.
      change (Z.of_nat (expected_tracks true)) with 2 in K.
      destruct (2 <=? uint32_incr (tracksAdded s)); simpl; [|exact K].
      destruct (startResult e); simpl; rewrite <- app_assoc; exact K.
    + split_cases; apply registrar_snoc; (reflexivity || exact Hs).
Qed.

(** C2 (amended).  In a session in which each encoder reports a format change
    at most once, [muxer->start] is called once when the number of added
    tracks has reached the expected count (1 without audio, 2 with audio) and
    not at all before; the call comes directly after the [addTrack] that
    completes the count, whichever stream that is. *)
Theorem muxer_started_once_when_tracks_complete :
  forall fw gRecordAudio gTimeLimitSec stop se envs,
    let l := calls (fst (runEncoder fw gRecordAudio gTimeLimitSec
                                    stop se envs)) in
    (count_format_changes Video l <= 1)%nat ->
    (count_format_changes Audio l <= 1)%nat ->
    count_starts l =
      (if (expected_tracks gRecordAudio <=? count_tracks l)%nat
       then 1 else 0)%nat /\
    start_after_last_track (expected_tracks gRecordAudio) l.
Proof.
  intros fw g limit stop se envs l Hv Ha.
  assert (registrar_ok g (fst (runEncoder fw g limit stop se envs))) as [R1 R2].
  { apply runEncoder_preserves; [apply registrar_invariant|].
    split; [reflexivity|]. intros _. repeat split.
    - destruct g; reflexivity.
    - destruct pre; discriminate.
    - destruct pre; discriminate. }
  fold l in R1, R2.
  assert (count_tracks l <= expected_tracks g)%nat as Hle.
  { rewrite count_tracks_by_stream. destruct g; simpl; [lia|].
    rewrite (R1 eq_refl). lia. }
  destruct (R2 Hle) as (_ & Hs & Hp). split; assumption.
Qed.

(** ** Samples and the start of the muxer *)

Lemma started_before_writes_snoc l ev :
  started_before_writes l ->
  (is_write ev = true -> In MuxerStart l) ->
  started_before_writes (l ++ [ev]).
Proof.
  intros Hl Hev pre ev' post H Hw. apply snoc_inv in H.
  destruct H as [(_ & -> & ->)|(post' & _ & H)].
  - apply Hev, Hw.
  - apply (Hl _ _ _ H Hw).
Qed.

Lemma video_only_started_log ev s :
  is_write ev = false ->
  video_only_started s -> video_only_started (log_call ev s).
Proof.
  intros Hev (H0 & H1 & H2). repeat split; simpl.
  - exact H0.
  - intros H. apply in_or_app. left. apply H1, H.
  - apply started_before_writes_snoc; [exact H2|].
    rewrite Hev. discriminate.
Qed.

Lemma video_only_started_invariant fw :
  LoopInvariant fw false video_only_started.
Proof.
  constructor.
  - intros ev s Hev Hs. apply video_only_started_log; [|exact Hs].
    destruct ev; try reflexivity; discriminate.
  - intros b s Hs. exact Hs.
  - intros e s Hs. unfold videoOutput. unfold_monad.
    destruct (dequeued e) eqn:D; simpl; try exact Hs.
    + destruct Hs as (H0 & H1 & H2).
      split_cases; try (repeat split; assumption);
        repeat (apply video_only_started_log; [reflexivity|]);
        try (repeat split; assumption);
        (repeat split; simpl;
         [ exact H0
         | intros _; apply in_or_app; left; apply H1; right; arith
         | apply started_before_writes_snoc; [exact H2|];
           intros _; apply H1; right; arith ]).
    + destruct Hs as (H0 & H1 & H2).
      pose proof (Z.mod_pos_bound (tracksAdded s + 1) UINT32_MODULUS
                    ltac:(reflexivity)) as B.
      assert (uint32_incr (tracksAdded s) = 0 -> In MuxerStart (calls s)) as Z0.
      { intros Hz. apply H1. left. intros Hn. unfold uint32_incr in Hz.
        rewrite Hn in Hz. discriminate. }
      destruct (1 <=? uint32_incr (tracksAdded s)) eqn:E; simpl.
      * assert (video_only_started
                  (log_call MuxerStart
                     (set_tracksAdded (uint32_incr (tracksAdded s))
                        (set_videoTrackIdx (addedTrack e)
                           (log_call (AddTrack Video) s))))) as K.
        { repeat split; simpl.
          - unfold uint32_incr. lia.
          - intros _. apply in_or_app. right. left. reflexivity.
          - repeat (apply started_before_writes_snoc; [|discriminate]).
            exact H2. }
        destruct (startResult e); exact K.
      * repeat split; simpl.
        -- unfold uint32_incr. lia.
        -- intros _. apply in_or_app. left. apply Z0.
           to_prop. unfold uint32_incr in *. lia.
        -- apply started_before_writes_snoc; [exact H2|discriminate].
    + split_cases; apply video_only_started_log; (reflexivity || exact Hs).
  - intros H. discriminate.
Qed.

(** X1.  In a session without audio no sample is written before the muxer
    was started: the path on which the CHECK on the track index does its
    work. *)
Lemma video_only_started_before_writes :
  forall fw gTimeLimitSec stop se envs,
    started_before_writes
      (calls (fst (runEncoder fw false gTimeLimitSec stop se envs))).
Proof.
  intros.
  apply (runEncoder_preserves fw false video_only_started
           (video_only_started_invariant fw) gTimeLimitSec stop se envs).
  repeat split; simpl.
  - lia.
  - intros [H|H]; exfalso; apply H; reflexivity.
  - intros pre ev post H. destruct pre; discriminate.
Qed.

(** ** The properties on concrete sessions *)

(** C1 at the failing input: with audio enabled, the video format change adds
    the video track without starting the muxer (one track of two), and the
    video frame that follows passes the CHECK on the video track index and is
    handed to [writeSampleData], whatever the muxer then answers: the log holds
    a [writeSampleData] and no [start] at all. *)
Theorem sample_written_before_muxer_start :
  forall w,
    let l := calls (fst (runEncoder android true 180 false (setupAt 0)
                                    (videoFrameBeforeAudioFormat w))) in
    (exists rest,
       l = [ GetOutputBuffers Video; GetOutputBuffers Audio; GetInputBuffers;
             RecorderStart; AddTrack Video; WriteSampleData Video 0 0 7 0 ]
           ++ rest) /\
    count_starts l = 0%nat /\
    ~ started_before_writes l.
Proof.
  intros w l. subst l.
  assert (exists rest,
            calls (fst (runEncoder android true 180 false (setupAt 0)
                                   (videoFrameBeforeAudioFormat w))) =
            [ GetOutputBuffers Video; GetOutputBuffers Audio; GetInputBuffers;
              RecorderStart; AddTrack Video; WriteSampleData Video 0 0 7 0 ]
            ++ rest /\ count_starts rest = 0%nat) as (rest & E & C).
  { destruct w; eexists; split; reflexivity. }
  rewrite E. split; [exists rest; reflexivity|]. split.
  - rewrite count_starts_app, C. reflexivity.
  - intros H.
    specialize (H [GetOutputBuffers Video; GetOutputBuffers Audio;
                   GetInputBuffers; RecorderStart; AddTrack Video]
                  (WriteSampleData Video 0 0 7 0) rest eq_refl eq_refl).
    simpl in H. intuition discriminate.
Qed.

(** C2, counterexample: without audio, a second format change of the video
    encoder calls [start] a second time. *)
Lemma muxer_started_twice :
  calls (fst (runEncoder android false 180 false (setupAt 0)
                         videoFormatChangedTwice)) =
    [ GetOutputBuffers Video; AddTrack Video; MuxerStart;
      AddTrack Video; MuxerStart ] /\
  count_starts (calls (fst (runEncoder android false 180 false (setupAt 0)
                                       videoFormatChangedTwice))) = 2%nat.
Proof. split; reflexivity. Qed.

(** C2 at a concrete input: the audio format is known first; the muxer is
    started once, right after the video track is added. *)
Lemma muxer_started_once_audio_first :
  count_starts (calls (fst (runEncoder android true 180 false (setupAt 0)
                                       audioFormatFirst))) = 1%nat /\
  start_after_last_track 2
    (calls (fst (runEncoder android true 180 false (setupAt 0)
                            audioFormatFirst))).
Proof.
  exact (muxer_started_once_when_tracks_complete
           android true 180 false (setupAt 0) audioFormatFirst
           ltac:(vm_compute; lia) ltac:(vm_compute; lia)).
Defined.

(** Scenario D: the timestamps 100, 90, 50 are written as 100, 100 + 23219
    and (100 + 23219) + 23219. *)
Lemma scenario_D_reconciled :
  audioPts (calls (fst (runEncoder android true 180 false (setupAt 0)
                                   scenarioD))) =
    [100; 100 + 23219; (100 + 23219) + 23219] /\
  lastAudioPtsUs (fst (runEncoder android true 180 false (setupAt 0)
                                  scenarioD)) = (100 + 23219) + 23219.
Proof.
  refine (audio_reconciler_refines_spec android 180 false (setupAt 0)
            scenarioD
            (fst (runEncoder android true 180 false (setupAt 0) scenarioD))
            _ _).
  - vm_compute. reflexivity.
  - repeat constructor; vm_compute; discriminate.
Defined.

(** C4, counterexample: the encoder reports 9223372036854775797 and then 5.
    The rule of the specification asks for 9223372036854775797 + 23219; the
    [int64_t] sum wraps, and the session, still recording, writes
    -9223372036854752600. *)
Lemma wrapped_timestamp_differs_from_rule :
  snd (runEncoder android true 180 false (setupAt 0) nearInt64Max)
    = Recording /\
  audioPts (calls (fst (runEncoder android true 180 false (setupAt 0)
                                   nearInt64Max))) <>
    reconcile_all_spec 0 (audioReported android nearInt64Max) /\
  reconcile_all_spec 0 (audioReported android nearInt64Max) =
    [9223372036854775797; 9223372036854799016; 9223372036854822235] /\
  audioPts (calls (fst (runEncoder android true 180 false (setupAt 0)
                                   nearInt64Max))) =
    [9223372036854775797; -9223372036854752600; 6].
Proof.
  split; [reflexivity|]. split; [vm_compute; discriminate|].
  split; vm_compute; reflexivity.
Qed.

(** C3 at a concrete input: Scenario D, whose timestamps are at most 100. *)
Lemma scenario_D_nondecreasing :
  StronglySorted Z.le
    (audioPts (calls (fst (runEncoder android true 180 false (setupAt 0)
                                      scenarioD)))).
Proof.
  refine (audio_timestamps_nondecreasing android true 180 false (setupAt 0)
            scenarioD 100 _ _ _).
  - repeat constructor; intros b o sz p f E; inversion E; lia.
  - lia.
  - vm_compute. discriminate.
Defined.

(** C3, counterexample: after 9223372036854775797 the encoder reports 5; the
    sum 9223372036854775797 + 23219 wraps and the timestamp written next,
    -9223372036854752600, lies before the first one. *)
Lemma wrapped_timestamp_goes_back :
  ~ StronglySorted Z.le
      (audioPts (calls (fst (runEncoder android true 180 false (setupAt 0)
                                        nearInt64Max)))).
Proof.
  intros H.
  change (audioPts (calls (fst (runEncoder android true 180 false (setupAt 0)
                                           nearInt64Max))))
    with [9223372036854775797; -9223372036854752600; 6] in H.
  inversion H as [|? ? _ F]; subst.
  inversion F as [|? ? L _]; subst. lia.
Qed.

(** C6 at a concrete input: both formats are known and each encoder hands
    out a frame flagged end-of-stream; the loop goes on with the stop flag
    down. *)
Lemma end_of_stream_frames_do_not_end_loop :
  snd (loopIteration android true 180000000000 lastFrames
         (fst (runEncoder android true 180 false (setupAt 0)
                 [iteration 0 formatChanged formatChanged]))) = Val Next /\
  gStopRequested
    (fst (loopIteration android true 180000000000 lastFrames
            (fst (runEncoder android true 180 false (setupAt 0)
                    [iteration 0 formatChanged formatChanged])))) = false.
Proof.
  destruct (end_of_stream_never_leaves_loop android true 180000000000
              lastFrames
              (fst (runEncoder android true 180 false (setupAt 0)
                      [iteration 0 formatChanged formatChanged])))
    as (_ & F & N).
  assert (snd (loopIteration android true 180000000000 lastFrames
                 (fst (runEncoder android true 180 false (setupAt 0)
                         [iteration 0 formatChanged formatChanged])))
          = Val Next) as Nx.
  { apply N.
    - vm_compute. reflexivity.
    - vm_compute. repeat split; discriminate.
    - intros _. vm_compute. repeat split; discriminate. }
  split; [exact Nx|]. rewrite (F Nx). reflexivity.
Defined.

(** C5, counterexample: the frame of the iteration in which the signal is
    delivered is still written, after the flag was set. *)
Lemma sample_written_after_signal :
  ~ no_write_after_signal
      (calls (fst (runEncoder android false 180 false (setupAt 0)
                              signalBeforeFrame))).
Proof.
  intros H.
  specialize (H [GetOutputBuffers Video; AddTrack Video; MuxerStart]
                [WriteSampleData Video 0 0 7 0; ReleaseOutputBuffer Video 0]
                eq_refl).
  discriminate.
Qed.

(** C5 at a concrete input: the iteration after the one in which the signal
    was delivered leaves the loop at its head; its frame is not dequeued. *)
Lemma loop_left_after_signal :
  let r := runEncoder android false 180 false (setupAt 0)
                      (signalBeforeFrame ++ [iteration 0 (buffer 8 0 0) idle]) in
  snd r = Completed /\
  calls (fst r) =
    calls (fst (runEncoder android false 180 false (setupAt 0)
                           signalBeforeFrame)) ++ [] ++ [] /\
  In MuxerStop (recordScreenAfter false r).
Proof.
  refine (stop_flag_leaves_loop_at_next_head
            android false 180 false (setupAt 0) signalBeforeFrame
            (iteration 0 (buffer 8 0 0) idle) []
            (fst (runEncoder android false 180 false (setupAt 0)
                             signalBeforeFrame))
            _ _); vm_compute; reflexivity.
Defined.

(** A stop request that is followed, in the same iteration, by the release of
    a buffer flagged end-of-stream is forgotten: the flag is set back to false
    and the loop keeps going. *)
Lemma stop_request_cleared_by_end_of_stream :
  snd (runEncoder android false 180 false (setupAt 0) signalBeforeLastFrame)
    = Recording /\
  gStopRequested
    (fst (runEncoder android false 180 false (setupAt 0)
                     signalBeforeLastFrame)) = false.
Proof. split; vm_compute; reflexivity. Qed.



(** C9, counterexample: the clock reads 5 000 000 999 ns when the frame
    without timestamp is handled, the session started at 5 000 000 000 ns;
    the frame is written with 5 000 000 us, which is the start instant and
    not later. *)
Lemma substituted_timestamp_not_after_start :
  In (WriteSampleData Video 0 0 5000000 0)
     (calls (fst (runEncoder android false 180 false (setupAt 5000000000)
                             frameRightAfterStart))) /\
  ~ (startWhenNsec (setupAt 5000000000) < 5000000 * 1000) /\
  ~ (Z.quot (startWhenNsec (setupAt 5000000000)) 1000 < 5000000).
Proof.
  split; [vm_compute; do 3 right; left; reflexivity|].
  split; intros H; vm_compute in H; discriminate H.
Qed.

(** C9 at a concrete input: session start at 5000 ns, frame without
    timestamp handled at 6000 ns, written with 6 us. *)
Lemma zero_timestamp_substituted :
  (exists rest,
     calls (fst (videoOutput android false (buffer 0 0 6000)
                   (set_videoTrackIdx 0 (initialState false)))) =
     [] ++ WriteSampleData Video 0 0 6 0 :: rest) /\
  (0 <> 0 -> videoPts (buffer 0 0 6000) 0 = 0) /\
  (0 = 0 -> 0 <= 5000 -> 5000 + 1000 <= 6000 ->
   videoPts (buffer 0 0 6000) 0 <> 0 /\
   5000 < videoPts (buffer 0 0 6000) 0 * 1000).
Proof.
  refine (video_zero_timestamp_takes_clock
            android false (buffer 0 0 6000)
            (set_videoTrackIdx 0 (initialState false)) 0 0 10 0 0
            (setupAt 5000) _ _ _); vm_compute; (reflexivity || discriminate).
Defined.

(** C10 at a concrete input: neither buffer is data; both are released. *)
Lemma config_and_eos_buffers_released :
  exists new,
    calls (fst (loopIteration android true 0 configAndEosOnly
                              (initialState false))) =
    [] ++ new /\
    forall st b o sz p f,
      st = Video \/ true = true ->
      dequeued (outputOf st configAndEosOnly) = GotBuffer b o sz p f ->
      releaseResult (outputOf st configAndEosOnly) = NO_ERROR /\
      buffer_calls android st (outputOf st configAndEosOnly) b f
                   (filter (about st) new).
Proof.
  refine (dequeued_buffers_released android true 0 configAndEosOnly
            (initialState false)
            (fst (loopIteration android true 0 configAndEosOnly
                                (initialState false))) _).
  vm_compute. reflexivity.
Defined.

(** ** Further properties of the encoder loop *)

Lemma track_index_set_invariant fw gRecordAudio :
  LoopInvariant fw gRecordAudio (fun s => Forall track_index_set (calls s)).
Proof.
  constructor.
  - intros ev s Hev Hs. simpl. apply Forall_snoc; [exact Hs|].
    destruct ev; simpl; auto; discriminate.
  - intros b s Hs. exact Hs.
  - intros e s Hs. unfold videoOutput. unfold_monad.
    destruct (dequeued e); simpl; split_cases;
      repeat (apply Forall_snoc; simpl; auto); try assumption; arith.
  - intros _ e s Hs. unfold audioOutput. unfold_monad.
    destruct (dequeued e); simpl; split_cases;
      repeat (apply Forall_snoc; simpl; auto); try assumption; arith.
Qed.

(** X3.  Whatever the encoders and the muxer answer, no sample is handed to
    [writeSampleData] with track index -1: the CHECK on the stream's track
    index stands before every write. *)
Theorem no_sample_written_on_track_minus_one :
  forall fw gRecordAudio gTimeLimitSec stop se envs,
    Forall track_index_set
      (calls (fst (runEncoder fw gRecordAudio gTimeLimitSec stop se envs))).
Proof.
  intros. apply runEncoder_preserves with
    (P := fun s => Forall track_index_set (calls s)).
  - apply track_index_set_invariant.
  - constructor.
Qed.

Lemma forallb_snoc {A} (f : A -> bool) l x :
  forallb f l = true -> f x = true -> forallb f (l ++ [x]) = true.
Proof.
  intros Hl Hx. rewrite forallb_app, Hl. simpl. rewrite Hx. reflexivity.
Qed.

Lemma audio_free_videoOutput fw e s :
  forallb audio_free (calls s) = true ->
  forallb audio_free (calls (fst (videoOutput fw false e s))) = true.
Proof.
  intros Hs. unfold videoOutput. unfold_monad.
  destruct (dequeued e); simpl; split_cases;
    repeat (apply forallb_snoc; [|reflexivity]); exact Hs.
Qed.

Lemma audio_free_after_signal sig s :
  forallb audio_free (calls s) = true ->
  forallb audio_free (calls (after_signal sig s)) = true.
Proof.
  intros Hs. destruct sig; simpl; [|exact Hs].
  apply forallb_snoc; [exact Hs|reflexivity].
Qed.

Lemma audio_free_loopIteration fw endW e s :
  forallb audio_free (calls s) = true ->
  forallb audio_free (calls (fst (loopIteration fw false endW e s))) = true.
Proof.
  intros Hs. destruct (left_at_head endW e s) eqn:Hh.
  - rewrite loopIteration_head by exact Hh. simpl.
    apply audio_free_after_signal, Hs.
  - rewrite loopIteration_body by exact Hh. unfold bind.
    rewrite loopBody_eq.
    pose proof (audio_free_videoOutput fw (videoOut e)
                  (after_signal (sigBody e)
                     (after_audioInput false (audioIn e)
                        (after_signal (sigHead e) s)))) as V.
    destruct (videoOutput fw false (videoOut e)
                (after_signal (sigBody e)
                   (after_audioInput false (audioIn e)
                      (after_signal (sigHead e) s)))) as [s1 [[]|x]];
      cbn [fst] in *.
    + apply audio_free_after_signal, V, audio_free_after_signal.
      unfold after_audioInput. apply audio_free_after_signal, Hs.
    + apply V, audio_free_after_signal.
      unfold after_audioInput. apply audio_free_after_signal, Hs.
Qed.

Lemma audio_free_whileLoop fw endW envs :
  forall s,
    forallb audio_free (calls s) = true ->
    forallb audio_free (calls (fst (whileLoop fw false endW envs s))) = true.
Proof.
  induction envs as [|e envs IH]; intros s Hs; simpl; [exact Hs|].
  pose proof (audio_free_loopIteration fw endW e s Hs) as H.
  destruct (loopIteration fw false endW e s) as [s1 [[|]|x]];
    cbn [fst] in *; auto.
Qed.

(** With [gRecordAudio] false the encoder loop and the shutdown make no call
    on the audio encoder or the audio recorder, and no audio track is added
    or written. *)
Lemma audio_free_recordScreenAfter :
  forall fw gTimeLimitSec stop se envs,
    forallb audio_free
      (recordScreenAfter false
         (runEncoder fw false gTimeLimitSec stop se envs)) = true.
Proof.
  intros fw limit stop se envs. unfold runEncoder.
  assert (forallb audio_free
            (calls (fst (setup false se (initialState stop)))) = true) as S.
  { unfold setup. unfold_monad. destruct (videoBuffers se); reflexivity. }
  destruct (setup false se (initialState stop)) as [s0 [[]|x]];
    cbn [fst] in S.
  - pose proof (audio_free_whileLoop fw (endWhen fw limit se) envs s0 S) as W.
    destruct (whileLoop fw false (endWhen fw limit se) envs s0)
      as [s1 [[|]|y]]; cbn [fst] in W; simpl.
    + rewrite forallb_app, W. reflexivity.
    + exact W.
    + destruct y; simpl; rewrite ?forallb_app, ?W; try reflexivity; exact W.
  - simpl. destruct x; simpl; rewrite ?forallb_app, ?S; try reflexivity; exact S.
Qed.

(** X4.  A [writeSampleData] of a video frame that fails is fatal at once:
    [runEncoder] returns the muxer's error code, the failed write is the last
    call it makes, and the dequeued buffer is not released. *)
Theorem failed_video_write_aborts_without_release :
  forall fw gRecordAudio gTimeLimitSec stop se envs e rest s b o sz p f err,
    runEncoder fw gRecordAudio gTimeLimitSec stop se envs = (s, Recording) ->
    left_at_head (endWhen fw gTimeLimitSec se) e s = false ->
    dequeued (videoOut e) = GotBuffer b o sz p f ->
    is_data fw (videoOut e) = true ->
    videoTrackIdx s <> -1 ->
    writeResult (videoOut e) = Error err ->
    let r := runEncoder fw gRecordAudio gTimeLimitSec stop se
                        (envs ++ e :: rest) in
    snd r = Aborted (Returned err) /\
    calls (fst r) =
      calls (before_video gRecordAudio e s) ++
      [WriteSampleData Video b (videoTrackIdx s) (videoPts (videoOut e) p) f].
Proof.
  intros fw g limit stop se envs e rest s b o sz p f err H Hh D Hd Ht Hw r.
  subst r.
  destruct (before_video_tracks g e s) as [Tv _].
  assert (videoOutput fw g (videoOut e) (before_video g e s) =
          (log_call (WriteSampleData Video b (videoTrackIdx s)
                       (videoPts (videoOut e) p) f) (before_video g e s),
           Halt (Returned err))) as V.
  { unfold is_data in Hd. rewrite D in Hd.
    apply andb_true_iff in Hd. destruct Hd as [Hc Hz].
    apply negb_true_iff in Hc.
    unfold videoOutput, videoPts. unfold_monad.
    rewrite D, Hc, Hz, Tv, Hw.
    apply Z.eqb_neq in Ht. rewrite Ht. reflexivity. }
  assert (loopBody fw g e (after_signal (sigHead e) s) =
          (log_call (WriteSampleData Video b (videoTrackIdx s)
                       (videoPts (videoOut e) p) f) (before_video g e s),
           Halt (Returned err))) as B.
  { rewrite loopBody_eq. unfold before_video in V. rewrite V. reflexivity. }
  rewrite (runEncoder_halt fw g limit stop se envs e rest s _ _ H B Hh).
  split; reflexivity.
Qed.

(** X4 at a concrete input: the muxer answers the frame with error -38. *)
Lemma refused_frame_ends_session :
  let s := fst (runEncoder android false 180 false (setupAt 0)
                           [iteration 0 formatChanged idle]) in
  let r := runEncoder android false 180 false (setupAt 0) frameRefused in
  snd r = Aborted (Returned (-38)) /\
  calls (fst r) =
    [GetOutputBuffers Video; AddTrack Video; MuxerStart] ++
    [WriteSampleData Video 0 0 7 0].
Proof.
  refine (failed_video_write_aborts_without_release
            android false 180 false (setupAt 0)
            [iteration 0 formatChanged idle]
            (iteration 0 {| dequeued := GotBuffer 0 0 10 7 0; clockNs := 0;
                            addedTrack := 0; startResult := NO_ERROR;
                            writeResult := Error (-38);
                            releaseResult := NO_ERROR;
                            buffersResult := NO_ERROR |} idle) []
            (fst (runEncoder android false 180 false (setupAt 0)
                             [iteration 0 formatChanged idle]))
            0 0 10 7 0 (-38) _ _ _ _ _ _);
    vm_compute; (reflexivity || discriminate).
Defined.

(** X2 at a concrete input: the four iterations of Scenario D, whose audio
    timestamps are at most 100. *)
Lemma scenario_D_stays_in_range :
  Forall (fun p => 0 <= p <= 100 + kAacFrameTimeUs * 4)
    (audioPts (calls (fst (runEncoder android true 180 false (setupAt 0)
                                      scenarioD)))) /\
  0 <= lastAudioPtsUs (fst (runEncoder android true 180 false (setupAt 0)
                                       scenarioD))
    <= 100 + kAacFrameTimeUs * 4.
Proof.
  refine (no_signed_overflow_when_bounded android true 180 false (setupAt 0)
            scenarioD 100 _ _ _).
  - repeat constructor; intros b o sz p f E; inversion E; lia.
  - lia.
  - vm_compute. discriminate.
Defined.

(** ** [strtol] and [parseWidthHeight] *)

Lemma isdigit_not_space c : isdigit c = true -> isspace c = false.
Proof.
  unfold isdigit, isspace. intros H.
  apply andb_true_iff in H. destruct H as [H1 H2]. to_prop.
  apply orb_false_iff. split.
  - apply Z.eqb_neq. lia.
  - apply andb_false_iff. right. apply Z.leb_gt. lia.
Qed.

Lemma isdigit_not_sign c :
  isdigit c = true -> Ascii.eqb c "-" = false /\ Ascii.eqb c "+" = false.
Proof.
  intros H. split.
  - destruct (Ascii.eqb c "-") eqn:E; [|reflexivity].
    apply Ascii.eqb_eq in E. subst. discriminate.
  - destruct (Ascii.eqb c "+") eqn:E; [|reflexivity].
    apply Ascii.eqb_eq in E. subst. discriminate.
Qed.

Lemma skip_spaces_app ws r :
  forallb isspace ws = true ->
  match r with c :: _ => isspace c = false | [] => True end ->
  skip_spaces (ws ++ r) = r.
Proof.
  intros Hws Hr. induction ws as [|c ws IH]; simpl in *.
  - destruct r as [|c r]; [reflexivity|]. simpl. rewrite Hr. reflexivity.
  - apply andb_true_iff in Hws. destruct Hws as [Hc Hws].
    rewrite Hc. apply IH, Hws.
Qed.

Lemma skip_spaces_decomp s :
  exists ws, s = ws ++ skip_spaces s /\ forallb isspace ws = true.
Proof.
  induction s as [|c s (ws & E & H)]; simpl.
  - exists []. split; reflexivity.
  - destruct (isspace c) eqn:Hc.
    + exists (c :: ws). simpl. rewrite Hc, H. split; [congruence|reflexivity].
    + exists []. split; reflexivity.
Qed.

Lemma read_digits_app ds r acc :
  forallb isdigit ds = true -> no_digit_ahead r ->
  read_digits acc (ds ++ r) = (digits_value acc ds, r).
Proof.
  revert acc. induction ds as [|c ds IH]; intros acc Hds Hr; simpl in *.
  - destruct r as [|c r]; [reflexivity|]. simpl in *. rewrite Hr. reflexivity.
  - apply andb_true_iff in Hds. destruct Hds as [Hc Hds].
    rewrite Hc. apply IH; assumption.
Qed.

Lemma read_digits_decomp s :
  forall acc, exists ds rest,
    s = ds ++ rest /\ forallb isdigit ds = true /\ no_digit_ahead rest /\
    read_digits acc s = (digits_value acc ds, rest).
Proof.
  induction s as [|c s IH]; intros acc; simpl.
  - exists [], []. repeat split.
  - destruct (isdigit c) eqn:Hc.
    + destruct (IH (acc * 10 + digit_value c)) as (ds & rest & E & Hd & Hr & R).
      exists (c :: ds), rest. simpl. rewrite Hc, Hd.
      repeat split; [congruence|exact Hr|exact R].
    + exists [], (c :: s). repeat split. exact Hc.
Qed.

(** [strtol] on a number followed by something that is no digit. *)
Lemma strtol_number LONG_MAX a v r :
  number_syntax a v -> no_digit_ahead r ->
  strtol LONG_MAX (a ++ r) = (clamp_long LONG_MAX v, r).
Proof.
  intros Ha Hr. destruct Ha as [ws sg ds Hws Hds Hne].
  destruct ds as [|d ds]; [contradiction|].
  simpl in Hds. apply andb_true_iff in Hds. destruct Hds as [Hd Hds].
  destruct (isdigit_not_sign d Hd) as [Hm Hp].
  unfold strtol. rewrite <- !app_assoc.
  rewrite skip_spaces_app; [|exact Hws|].
  - assert (read_digits 0 (d :: ds ++ r) = (digits_value 0 (d :: ds), r)) as R.
    { change (d :: ds ++ r) with ((d :: ds) ++ r).
      apply read_digits_app; [simpl; rewrite Hd, Hds; reflexivity|exact Hr]. }
    destruct sg; cbn [sign_chars sign_apply app].
    + rewrite Hm, Hp. cbv beta iota. rewrite Hd, R. reflexivity.
    + change (Ascii.eqb "+" "-") with false.
      change (Ascii.eqb "+" "+") with true.
      cbv beta iota. rewrite Hd, R. reflexivity.
    + change (Ascii.eqb "-" "-") with true.
      cbv beta iota. rewrite Hd, R. reflexivity.
  - destruct sg; simpl; try reflexivity. apply isdigit_not_space, Hd.
Qed.

(** What [strtol] returns: either nothing was converted, or a number was
    read off the front of the string. *)
Lemma strtol_decomp LONG_MAX s v e :
  strtol LONG_MAX s = (v, e) ->
  (v = 0 /\ e = s) \/
  (exists a va, s = a ++ e /\ number_syntax a va /\
                v = clamp_long LONG_MAX va /\ no_digit_ahead e).
Proof.
  unfold strtol. destruct (skip_spaces_decomp s) as (ws & E & Hws).
  destruct (skip_spaces s) as [|c r] eqn:S.
  - intros H. inversion H. left. split; reflexivity.
  - assert (forall sg t,
              skip_spaces s = sign_chars sg ++ t ->
              match t with
              | c0 :: _ =>
                  if isdigit c0
                  then let '(v0, rest) := read_digits 0 t in
                       (clamp_long LONG_MAX (sign_apply sg v0), rest)
                  else (0, s)
              | [] => (0, s)
              end = (v, e) ->
              (v = 0 /\ e = s) \/
              (exists a va, s = a ++ e /\ number_syntax a va /\
                            v = clamp_long LONG_MAX va /\ no_digit_ahead e))
      as K.
    { intros sg t St H. destruct t as [|c0 t0].
      - inversion H. left. split; reflexivity.
      - destruct (isdigit c0) eqn:Hc0.
        + destruct (read_digits_decomp (c0 :: t0) 0)
            as (ds & rest & Et & Hds & Hr & R).
          rewrite R in H. inversion H; subst v e. right.
          exists (ws ++ sign_chars sg ++ ds), (sign_apply sg (digits_value 0 ds)).
          split; [|split; [|split]].
          * rewrite <- !app_assoc, <- Et, <- St, S. exact E.
          * apply (number_intro ws sg ds); [exact Hws|exact Hds|].
            intros ->. simpl in Et. subst rest. simpl in Hr. congruence.
          * reflexivity.
          * exact Hr.
        + inversion H. left. split; reflexivity. }
    rewrite S in K.
    destruct (Ascii.eqb c "-") eqn:Em.
    + apply Ascii.eqb_eq in Em. subst c.
      intros H. apply (K MinusSign r); [reflexivity|].
      destruct r as [|c0 t0]; [exact H|].
      destruct (isdigit c0); [|exact H].
      destruct (read_digits 0 (c0 :: t0)). exact H.
    + destruct (Ascii.eqb c "+") eqn:Ep.
      * apply Ascii.eqb_eq in Ep. subst c.
        intros H. apply (K PlusSign r); [reflexivity|].
        destruct r as [|c0 t0]; [exact H|].
        destruct (isdigit c0); [|exact H].
        destruct (read_digits 0 (c0 :: t0)). exact H.
      * intros H. apply (K NoSign (c :: r)); [reflexivity|].
        destruct (isdigit c); [|exact H].
        destruct (read_digits 0 (c :: r)). exact H.
Qed.

Lemma number_syntax_nonempty a v : number_syntax a v -> a <> [].
Proof.
  intros [ws sg ds _ _ Hne] E.
  apply app_eq_nil in E. destruct E as [_ E].
  apply app_eq_nil in E. destruct E as [_ E]. contradiction.
Qed.

(** X5.  [parseWidthHeight] succeeds exactly on strings of the form
    <number>x<number>, where a number is optional white space, an optional
    sign and at least one decimal digit; it then stores the two values,
    clamped to the range of [long] and converted to [uint32_t]. *)
Theorem parseWidthHeight_accepts_exactly_number_x_number :
  forall LONG_MAX s w h,
    parseWidthHeight LONG_MAX s = Some (w, h) <->
    exists a b va vb,
      s = a ++ "x"%char :: b /\
      number_syntax a va /\ number_syntax b vb /\
      w = to_uint32 (clamp_long LONG_MAX va) /\
      h = to_uint32 (clamp_long LONG_MAX vb).
Proof.
  intros LM s w h. unfold parseWidthHeight. split.
  - destruct (strtol LM s) as [v e] eqn:S1.
    destruct (length e =? length s)%nat eqn:L; [discriminate|].
    apply Nat.eqb_neq in L.
    destruct e as [|c after]; [discriminate|].
    destruct (Ascii.eqb c "x") eqn:Ex; simpl; [|discriminate].
    apply Ascii.eqb_eq in Ex. subst c.
    destruct after as [|c2 after]; [discriminate|].
    destruct (strtol LM (c2 :: after)) as [v2 e2] eqn:S2.
    destruct e2 as [|c3 e3]; [|discriminate].
    intros H. inversion H; subst w h.
    apply strtol_decomp in S1.
    destruct S1 as [[_ E]|(a & va & Ea & Na & Va & _)];
      [rewrite E in L; contradiction|].
    apply strtol_decomp in S2.
    destruct S2 as [[_ E]|(b & vb & Eb & Nb & Vb & _)]; [discriminate|].
    rewrite app_nil_r in Eb.
    exists a, b, va, vb. subst v v2 b.
    split; [exact Ea|]. split; [exact Na|]. split; [exact Nb|].
    split; reflexivity.
  - intros (a & b & va & vb & -> & Na & Nb & -> & ->).
    rewrite (strtol_number LM a va ("x"%char :: b) Na) by reflexivity.
    assert ((length ("x"%char :: b) =? length (a ++ "x"%char :: b))%nat = false)
      as ->.
    { apply Nat.eqb_neq. rewrite length_app.
      pose proof (number_syntax_nonempty a va Na).
      destruct a; [contradiction|]. simpl. lia. }
    simpl.
    pose proof (number_syntax_nonempty b vb Nb) as Hb.
    destruct b as [|c2 b']; [contradiction|].
    pose proof (strtol_number LM (c2 :: b') vb [] Nb I) as S2.
    rewrite app_nil_r in S2. rewrite S2. reflexivity.
Qed.

(** ** The option loop of [main] *)

Import Screenrecord.

Lemma to_uint32_range v : 0 <= to_uint32 v < UINT32_MODULUS.
Proof. unfold to_uint32, UINT32_MODULUS. apply Z.mod_pos_bound. lia. Qed.

Lemma parseWidthHeight_uint32 LONG_MAX s w h :
  parseWidthHeight LONG_MAX s = Some (w, h) ->
  0 <= w < UINT32_MODULUS /\ 0 <= h < UINT32_MODULUS.
Proof.
  unfold parseWidthHeight.
  destruct (strtol LONG_MAX s) as [v e].
  destruct (length e =? length s)%nat; [discriminate|].
  destruct e as [|c after]; [discriminate|].
  destruct (negb (Ascii.eqb c "x")); [discriminate|].
  destruct after as [|c2 after]; [discriminate|].
  destruct (strtol LONG_MAX (c2 :: after)) as [v2 e2].
  destruct e2; [|discriminate].
  intros H. inversion H. split; apply to_uint32_range.
Qed.

Lemma optionLoop_valid LONG_MAX answers :
  forall g g',
    valid_configuration g ->
    optionLoop LONG_MAX answers g = Parsed g' ->
    valid_configuration g'.
Proof.
  induction answers as [|o rest IH]; intros g g' V; simpl.
  - intros H. inversion H. subst. exact V.
  - destruct (ic o =? -1); [intros H; inversion H; subst; exact V|].
    destruct (ic o =? char_code "h"); [discriminate|].
    destruct (ic o =? char_code "v"); [apply IH; exact V|].
    destruct (ic o =? char_code "s").
    { destruct (parseWidthHeight LONG_MAX (optarg o)) as [[w h]|] eqn:P;
        [|discriminate].
      apply parseWidthHeight_uint32 in P.
      cbn [gVideoWidth gVideoHeight set_gVideoWidth set_gVideoHeight].
      destruct ((w =? 0) || (h =? 0)) eqn:Z0; [discriminate|].
      apply orb_false_iff in Z0. destruct Z0 as [Zw Zh].
      apply Z.eqb_neq in Zw, Zh.
      apply IH. destruct V as (B & T & _).
      split; [exact B|]. split; [exact T|]. simpl. lia. }
    destruct (ic o =? char_code "b").
    { cbn [gBitRate set_gBitRate].
      destruct ((_ <? _) || (_ >? _)) eqn:R; [discriminate|].
      apply orb_false_iff in R. destruct R as [R1 R2].
      apply IH. destruct V as (_ & T & S).
      split; [|split; [exact T|exact S]]. simpl. lia. }
    destruct (ic o =? char_code "t").
    { cbn [gTimeLimitSec set_gTimeLimitSec].
      destruct ((_ =? 0) || (_ >? _)) eqn:R; [discriminate|].
      apply orb_false_iff in R. destruct R as [R1 R2].
      pose proof (to_uint32_range (atoi LONG_MAX (optarg o))).
      apply IH. destruct V as (B & _ & S).
      split; [exact B|]. split; [|exact S]. simpl. lia. }
    destruct (ic o =? char_code "r"); [apply IH; exact V|].
    destruct (ic o =? char_code "a"); [apply IH; exact V|].
    discriminate.
Qed.

(** X6.  Whatever the command line, [main] calls [recordScreen] only with a
    bit rate in [100000, 100000000], a time limit in [1, 180] seconds, and
    either no size (width and height 0) or an explicitly requested size whose
    width and height are both non-zero. *)
Theorem main_records_only_with_valid_configuration :
  forall LONG_MAX env g,
    In (RecordScreen g) (fst (main LONG_MAX env)) ->
    valid_configuration g.
Proof.
  intros LM env g. unfold main.
  destruct (optionLoop LM (getopt_long env) initialGlobals) as [| |g0] eqn:O.
  - simpl. intros [H|[]]. discriminate.
  - simpl. intros [].
  - assert (valid_configuration g0) as V.
    { apply (optionLoop_valid LM (getopt_long env) initialGlobals g0);
        [|exact O].
      unfold valid_configuration, initialGlobals, kMinBitRate, kMaxBitRate,
        kMaxTimeLimitSec. simpl. lia. }
    destruct (negb (remainingArgs env =? 1)); [intros []|].
    destruct (fd env <? 0); [simpl; intros [H|[]]; discriminate|].
    destruct (recordScreenResult env); simpl;
      intros H; repeat (destruct H as [H|H]; try discriminate H);
      try contradiction; inversion H; subst; exact V.
Qed.

(** X6 at a concrete input: a size, a bit rate and [--audio]. *)
Lemma size_bit_rate_audio_is_valid :
  valid_configuration
    (mkGlobals false false true true 1280 720 6000000 180).
Proof.
  refine (main_records_only_with_valid_configuration 2147483647
            sizeBitRateAudio _ _).
  vm_compute. right. right. left. reflexivity.
Defined.

(** ** The buffer of the audio recorder *)

Lemma to_size_t_small SIZE_MAX v :
  0 <= v <= SIZE_MAX -> to_size_t SIZE_MAX v = v.
Proof. intros H. unfold to_size_t. apply Z.mod_small. lia. Qed.

Lemma to_uint32_small v : 0 <= v < UINT32_MODULUS -> to_uint32 v = v.
Proof. intros H. unfold to_uint32. apply Z.mod_small. exact H. Qed.

(** X7.  When the query of the minimum frame count succeeds, the byte count
    fits [uint32_t] and the size computed from it fits [size_t], the recorder
    is set up with at least that many frames, with at least 10240 frames, and
    with a whole number of 2048-sample frames. *)
Theorem recorder_buffer_covers_minimum :
  forall SIZE_MAX BAD_VALUE PCM16 frameCount,
    UINT32_MODULUS - 1 <= SIZE_MAX ->
    0 <= frameCount -> 2 * frameCount < UINT32_MODULUS ->
    2 * (2 * frameCount + kSamplesPerFrame) <= SIZE_MAX ->
    let n := recorderFrameCount SIZE_MAX BAD_VALUE PCM16 NO_ERROR frameCount in
    frameCount <= n /\ 10240 <= n /\ n mod kSamplesPerFrame = 0.
Proof.
  intros SM BV PCM f HS H0 H1 H2. cbv zeta.
  unfold recorderFrameCount, getMinBuffSize, buffSize, kSamplesPerFrame,
    kAudioSampleRate, UINT32_MODULUS in *.
  rewrite Z.eqb_refl. rewrite Z.mul_1_r.
  rewrite (to_size_t_small SM f) by lia.
  rewrite (to_size_t_small SM (f * 2)) by lia.
  rewrite (to_uint32_small (f * 2)) by (unfold UINT32_MODULUS; lia).
  rewrite (to_size_t_small SM (f * 2)) by lia.
  rewrite (to_uint32_small (2048 * 10)) by (unfold UINT32_MODULUS; lia).
  rewrite (to_size_t_small SM (2048 * 10)) by lia.
  destruct (2048 * 10 <? f * 2) eqn:G.
  - apply Z.ltb_lt in G.
    pose proof (Z.div_mod (f * 2) 2048 ltac:(lia)) as D.
    pose proof (Z.mod_pos_bound (f * 2) 2048 ltac:(lia)) as B.
    set (q := f * 2 / 2048) in *.
    rewrite (to_size_t_small SM (q + 1)) by lia.
    rewrite (to_size_t_small SM ((q + 1) * 2048)) by lia.
    rewrite (to_size_t_small SM ((q + 1) * 2048 * 2)) by lia.
    rewrite Z.div_mul by lia.
    rewrite Z.mod_mul by lia. lia.
  - apply Z.ltb_ge in G. change (2048 * 10 / 2) with 10240.
    split; [lia|]. split; [lia|reflexivity].
Qed.

(** X7 at a concrete input: a minimum of 12000 frames, 64-bit [size_t]. *)
Lemma recorder_buffer_for_12000_frames :
  12000 <= recorderFrameCount 18446744073709551615 (-22) 1 NO_ERROR 12000 /\
  10240 <= recorderFrameCount 18446744073709551615 (-22) 1 NO_ERROR 12000 /\
  recorderFrameCount 18446744073709551615 (-22) 1 NO_ERROR 12000
    mod kSamplesPerFrame = 0.
Proof.
  refine (recorder_buffer_covers_minimum 18446744073709551615 (-22) 1 12000
            _ _ _ _); vm_compute; congruence.
Defined.

(** X8.  A failure of the query of the minimum frame count is not reported
    by [runEncoder].  For BAD_VALUE the recorder gets the default of 10240
    frames.  For any other error [getMinBuffSize] returns -1 as a
    [uint32_t]; the size computed from it is 2^33, so that the recorder is
    given 2^32 frames, or no frame at all where [size_t] has 32 bits. *)
Theorem failed_buffer_size_query_is_not_an_error :
  forall SIZE_MAX BAD_VALUE PCM16 err frameCount,
    UINT32_MODULUS - 1 <= SIZE_MAX ->
    recorderFrameCount SIZE_MAX BAD_VALUE PCM16 (Error err) frameCount =
    if err =? BAD_VALUE then 10240
    else if SIZE_MAX =? UINT32_MODULUS - 1 then 0
    else to_size_t SIZE_MAX (2 * UINT32_MODULUS) / 2.
Proof.
  intros SM BV PCM err f HS.
  unfold recorderFrameCount, getMinBuffSize, buffSize, kSamplesPerFrame,
    kAudioSampleRate, UINT32_MODULUS in *.
  rewrite (to_uint32_small (2048 * 10)) by (unfold UINT32_MODULUS; lia).
  rewrite (to_size_t_small SM (2048 * 10)) by lia.
  destruct (err =? BV).
  - rewrite (to_size_t_small SM 0) by lia. reflexivity.
  - change (to_uint32 (-1)) with 4294967295.
    rewrite (to_size_t_small SM 4294967295) by lia.
    change (2048 * 10 <? 4294967295) with true. cbv iota.
    change (4294967295 / 2048 + 1) with 2097152.
    rewrite (to_size_t_small SM 2097152) by lia.
    change (2097152 * 2048) with 4294967296.
    destruct (SM =? 4294967296 - 1) eqn:E.
    + apply Z.eqb_eq in E. subst SM. reflexivity.
    + apply Z.eqb_neq in E.
      rewrite (to_size_t_small SM 4294967296) by lia. reflexivity.
Qed.

(** X8 at a concrete input: the query fails with -38, 32-bit [size_t]. *)
Lemma failed_query_on_32_bit_size_t :
  recorderFrameCount 4294967295 (-22) 1 (Error (-38)) 0 = 0.
Proof.
  refine (failed_buffer_size_query_is_not_an_error 4294967295 (-22) 1 (-38) 0
            _).
  vm_compute. congruence.
Defined.

(** ** recordScreen *)

Lemma loop_event_invariant fw gRecordAudio :
  LoopInvariant fw gRecordAudio (fun s => Forall loop_event (calls s)).
Proof.
  constructor.
  - intros ev s Hev Hs. simpl. apply Forall_snoc; [exact Hs|].
    destruct ev; simpl; auto; discriminate.
  - intros b s Hs. exact Hs.
  - intros e s Hs. unfold videoOutput. unfold_monad.
    destruct (dequeued e); simpl; split_cases;
      repeat (apply Forall_snoc; simpl; auto); assumption.
  - intros _ e s Hs. unfold audioOutput. unfold_monad.
    destruct (dequeued e); simpl; split_cases;
      repeat (apply Forall_snoc; simpl; auto); assumption.
Qed.

Lemma runEncoder_loop_events fw gRecordAudio gTimeLimitSec stop se envs :
  Forall loop_event
    (calls (fst (runEncoder fw gRecordAudio gTimeLimitSec stop se envs))).
Proof.
  apply runEncoder_preserves with
    (P := fun s => Forall loop_event (calls s)).
  - apply loop_event_invariant.
  - constructor.
Qed.

Lemma held_app st a b : held st (a ++ b) = held st a + held st b.
Proof.
  unfold held. rewrite !filter_app, !length_app, !Nat2Z.inj_add. lia.
Qed.

Lemma held_loop_events st l :
  Forall loop_event l -> held st (map Encoding l) = 0.
Proof.
  unfold held. induction 1 as [|ev l Hev _ IH]; [reflexivity|].
  simpl. destruct ev; simpl in *; try exact IH; contradiction.
Qed.

Lemma prepareVideoEncoder_held UNKNOWN_ERROR g c st :
  held st (fst (prepareVideoEncoder UNKNOWN_ERROR g c)) =
  prepared Video st (snd (prepareVideoEncoder UNKNOWN_ERROR g c)).
Proof.
  unfold prepareVideoEncoder.
  destruct (codecCreated c), (configureResult c),
    (createInputSurfaceResult c), (codecStartResult c), st; reflexivity.
Qed.

Lemma prepareAudioEncoder_held UNKNOWN_ERROR c st :
  held st (fst (prepareAudioEncoder UNKNOWN_ERROR c)) =
  prepared Audio st (snd (prepareAudioEncoder UNKNOWN_ERROR c)).
Proof.
  unfold prepareAudioEncoder.
  destruct (codecCreated c), (configureResult c), (codecStartResult c), st;
    reflexivity.
Qed.

Lemma fallback_held UNKNOWN_ERROR g env err st :
  prepared Video st err
  + held st (snd (fst (fallback UNKNOWN_ERROR g env err))) =
  prepared Video st (snd (fallback UNKNOWN_ERROR g env err)).
Proof.
  assert (forall x, prepared Video st x + held st [] = prepared Video st x)
    as Z0 by (intros x; change (held st []) with 0; lia).
  unfold fallback. destruct err as [|e]; [apply Z0|].
  destruct (negb (gSizeSpecified g)); [|apply Z0].
  match goal with
  | |- context [if ?b then _ else _] => destruct b
  end; [|apply Z0].
  match goal with
  | |- context [prepareVideoEncoder ?u ?g' ?c] =>
      pose proof (prepareVideoEncoder_held u g' c st) as H;
      destruct (prepareVideoEncoder u g' c) as [l err']
  end.
  cbn [fst snd] in *. rewrite H. reflexivity.
Qed.

Lemma fallback_gRecordAudio UNKNOWN_ERROR g env err :
  gRecordAudio (fst (fst (fallback UNKNOWN_ERROR g env err))) = gRecordAudio g.
Proof.
  unfold fallback. destruct err as [|e]; [reflexivity|].
  destruct (negb (gSizeSpecified g)); [|reflexivity].
  match goal with
  | |- context [if ?b then _ else _] => destruct b
  end; [|reflexivity].
  match goal with
  | |- context [prepareVideoEncoder ?u ?g' ?c] =>
      destruct (prepareVideoEncoder u g' c) as [l err']
  end.
  reflexivity.
Qed.

Lemma defaultSize_gRecordAudio D0 D180 g env :
  gRecordAudio (defaultSize D0 D180 g env) = gRecordAudio g.
Proof.
  unfold defaultSize.
  destruct (gVideoWidth g =? 0); cbn [gVideoHeight set_gVideoWidth];
    destruct (gVideoHeight g =? 0); reflexivity.
Qed.

(** What the shutdown in [recordScreen] releases. *)
Lemma recordScreenAfter_held fw g limit stop se envs st :
  returned (snd (runEncoder fw g limit stop se envs)) = true ->
  held st (map Encoding
             (recordScreenAfter g (runEncoder fw g limit stop se envs))) =
  - (if stream_eqb st Video then 1 else if g then 1 else 0).
Proof.
  pose proof (runEncoder_loop_events fw g limit stop se envs) as L.
  destruct (runEncoder fw g limit stop se envs) as [s o].
  cbn [fst snd] in *. apply (held_loop_events st) in L.
  unfold recordScreenAfter.
  destruct o as [| |[err|]]; try discriminate; intros _;
    rewrite map_app, held_app, L; destruct g, st; reflexivity.
Qed.

(** X9.  When [recordScreen] returns, with or without an error, every codec
    that was created has been released: as many [release()] calls as
    successful [CreateByType] calls, for the video and for the audio
    encoder. *)
Theorem returning_session_holds_no_codec :
  forall fw UNKNOWN_ERROR D0 D180 g env st,
    returned (snd (recordScreen fw UNKNOWN_ERROR D0 D180 g env)) = true ->
    held st (fst (recordScreen fw UNKNOWN_ERROR D0 D180 g env)) = 0.
Proof.
  intros fw UE D0 D180 g env st. unfold recordScreen.
  destruct (configureSignalsResult env); [|reflexivity].
  destruct (getDisplayInfoResult env); [|reflexivity].
  set (g1 := defaultSize D0 D180 g env).
  pose proof (prepareVideoEncoder_held UE g1 (videoCodec env) st) as PV.
  destruct (prepareVideoEncoder UE g1 (videoCodec env)) as [first err].
  pose proof (fallback_held UE g1 env err st) as FB.
  destruct (fallback UE g1 env err) as [[g2 second] err2].
  cbn [fst snd] in *.
  assert (held st [ConfigureSignals; StartThreadPool; GetDisplayInfo] = 0)
    as C0 by (destruct st; reflexivity).
  assert (held st [CreateDisplay] = 0) as C1 by (destruct st; reflexivity).
  assert (held st (NewMediaMuxer
                     :: (if gRotate g2 then [SetOrientationHint 90] else []))
          = 0) as C2 by (destruct st, (gRotate g2); reflexivity).
  destruct err2 as [|e2];
    [|intros _; cbv beta iota zeta; cbn [fst snd];
      rewrite !held_app, C0; cbn [prepared] in FB; lia].
  unfold prepareVirtualDisplay.
  destruct (gRecordAudio g2) eqn:GA.
  - pose proof (prepareAudioEncoder_held UE (audioCodec env) st) as PA.
    destruct (prepareAudioEncoder UE (audioCodec env)) as [audio aerr].
    cbn [fst snd] in PA.
    destruct aerr as [|ea]; cbv beta iota zeta;
      cbn [fst snd gRotate gRecordAudio gTimeLimitSec set_gRecordAudio];
      rewrite ?GA; intros R;
      pose proof (recordScreenAfter_held _ _ _ _ _ _ st R) as A;
      rewrite !held_app, C0, C1, C2, A;
      destruct st; cbn [prepared stream_eqb] in *; lia.
  - cbv beta iota zeta. cbn [fst snd]. intros R.
    pose proof (recordScreenAfter_held _ _ _ _ _ _ st R) as A.
    rewrite !held_app, C0, C1, C2, A. rewrite ?GA.
    change (held st []) with 0.
    destruct st; cbn [prepared stream_eqb] in *; lia.
Qed.

(** X9 at a concrete input: the session that falls back to 720x1280 and
    loses its audio encoder. *)
Lemma returning_portrait_session_holds_no_codec :
  held Video
    (fst (recordScreen android (-2147483648) 0 2
            (set_gRecordAudio true initialGlobals) portraitSession)) = 0.
Proof.
  refine (returning_session_holds_no_codec android (-2147483648) 0 2
            (set_gRecordAudio true initialGlobals) portraitSession Video _).
  vm_compute. reflexivity.
Defined.

Lemma audioEncoder_unused_encoding l :
  forallb audio_free l = true ->
  forallb audioEncoder_unused (map Encoding l) = true.
Proof.
  induction l as [|ev l IH]; [reflexivity|]. simpl.
  intros H. apply andb_true_iff in H. destruct H as [H1 H2].
  rewrite H1. apply IH, H2.
Qed.

Lemma audioEncoder_unused_prepareVideoEncoder UNKNOWN_ERROR g c :
  forallb audioEncoder_unused (fst (prepareVideoEncoder UNKNOWN_ERROR g c))
  = true.
Proof.
  unfold prepareVideoEncoder.
  destruct (codecCreated c), (configureResult c),
    (createInputSurfaceResult c), (codecStartResult c); reflexivity.
Qed.

Lemma audioEncoder_unused_prepareAudioEncoder UNKNOWN_ERROR c :
  forallb audioEncoder_unused (fst (prepareAudioEncoder UNKNOWN_ERROR c))
  = true.
Proof.
  unfold prepareAudioEncoder.
  destruct (codecCreated c), (configureResult c), (codecStartResult c);
    reflexivity.
Qed.

Lemma audioEncoder_unused_fallback UNKNOWN_ERROR g env err :
  forallb audioEncoder_unused (snd (fst (fallback UNKNOWN_ERROR g env err)))
  = true.
Proof.
  unfold fallback. destruct err as [|e]; [reflexivity|].
  destruct (negb (gSizeSpecified g)); [|reflexivity].
  match goal with
  | |- context [if ?b then _ else _] => destruct b
  end; [|reflexivity].
  match goal with
  | |- context [prepareVideoEncoder ?u ?g' ?c] =>
      pose proof (audioEncoder_unused_prepareVideoEncoder u g' c) as H;
      destruct (prepareVideoEncoder u g' c) as [l err']
  end.
  exact H.
Qed.

(** X10.  When no audio was asked for, or when the audio encoder could not be
    prepared, the session goes on without audio: [recordScreen]'s
    [audioEncoder], which is then null, is never used, the audio recorder is
    not set up, and no audio track is added or written, from the setup of
    [runEncoder] to the shutdown. *)
Theorem audio_encoder_unused_unless_prepared :
  forall fw UNKNOWN_ERROR D0 D180 g env,
    gRecordAudio g = false \/
    snd (prepareAudioEncoder UNKNOWN_ERROR (audioCodec env)) <> NO_ERROR ->
    forallb audioEncoder_unused
      (fst (recordScreen fw UNKNOWN_ERROR D0 D180 g env)) = true.
Proof.
  intros fw UE D0 D180 g env H. unfold recordScreen.
  destruct (configureSignalsResult env); [|reflexivity].
  destruct (getDisplayInfoResult env); [|reflexivity].
  pose proof (defaultSize_gRecordAudio D0 D180 g env) as G1.
  set (g1 := defaultSize D0 D180 g env) in *.
  pose proof (audioEncoder_unused_prepareVideoEncoder UE g1 (videoCodec env))
    as PV.
  destruct (prepareVideoEncoder UE g1 (videoCodec env)) as [first err].
  pose proof (audioEncoder_unused_fallback UE g1 env err) as FB.
  pose proof (fallback_gRecordAudio UE g1 env err) as G2.
  destruct (fallback UE g1 env err) as [[g2 second] err2].
  cbn [fst snd] in *. rewrite G1 in G2.
  destruct err2 as [|e2]; cbv beta iota zeta; cbn [fst snd];
    [|rewrite !forallb_app, PV, FB; reflexivity].
  unfold prepareVirtualDisplay.
  pose proof (audioEncoder_unused_prepareAudioEncoder UE (audioCodec env))
    as PA.
  destruct (prepareAudioEncoder UE (audioCodec env)) as [audio aerr].
  cbn [fst snd] in *.
  destruct (gRecordAudio g2) eqn:GA.
  - destruct H as [H|H]; [congruence|].
    destruct aerr as [|ea]; [contradiction|].
    cbv beta iota zeta.
    cbn [fst snd gRotate gRecordAudio gTimeLimitSec set_gRecordAudio].
    rewrite !forallb_app, PV, FB, PA.
    rewrite audioEncoder_unused_encoding
      by apply audio_free_recordScreenAfter.
    destruct (gRotate g2); reflexivity.
  - cbv beta iota zeta. cbn [fst snd]. rewrite GA.
    rewrite !forallb_app, PV, FB.
    rewrite audioEncoder_unused_encoding
      by apply audio_free_recordScreenAfter.
    destruct (gRotate g2); reflexivity.
Qed.

(** X10 at a concrete input: audio was asked for and the audio encoder
    refuses its format. *)
Lemma audio_encoder_unused_in_portrait_session :
  forallb audioEncoder_unused
    (fst (recordScreen android (-2147483648) 0 2
            (set_gRecordAudio true initialGlobals) portraitSession)) = true.
Proof.
  refine (audio_encoder_unused_unless_prepared android (-2147483648) 0 2
            (set_gRecordAudio true initialGlobals) portraitSession _).
  right. vm_compute. discriminate.
Defined.

Lemma video_formats_app a b :
  video_formats (a ++ b) = video_formats a ++ video_formats b.
Proof.
  induction a as [|c a IH]; [reflexivity|].
  destruct c; simpl; rewrite IH; reflexivity.
Qed.

Lemma video_formats_encoding l : video_formats (map Encoding l) = [].
Proof. induction l as [|ev l IH]; [reflexivity|]. exact IH. Qed.

Lemma video_formats_prepareVideoEncoder UNKNOWN_ERROR g c :
  video_formats (fst (prepareVideoEncoder UNKNOWN_ERROR g c)) =
  [(to_int32 (gVideoWidth g), to_int32 (gVideoHeight g))].
Proof.
  unfold prepareVideoEncoder.
  destruct (codecCreated c), (configureResult c),
    (createInputSurfaceResult c), (codecStartResult c); reflexivity.
Qed.

Lemma video_formats_prepareAudioEncoder UNKNOWN_ERROR c :
  video_formats (fst (prepareAudioEncoder UNKNOWN_ERROR c)) = [].
Proof.
  unfold prepareAudioEncoder.
  destruct (codecCreated c), (configureResult c), (codecStartResult c);
    reflexivity.
Qed.

(** The video formats of a session are those of the first attempt and of the
    fallback. *)
Lemma video_formats_recordScreen fw UNKNOWN_ERROR D0 D180 g env :
  let g1 := defaultSize D0 D180 g env in
  let tried := video_formats
                 (fst (recordScreen fw UNKNOWN_ERROR D0 D180 g env)) in
  tried = [] \/
  tried = (to_int32 (gVideoWidth g1), to_int32 (gVideoHeight g1))
          :: video_formats
               (snd (fst (fallback UNKNOWN_ERROR g1 env
                            (snd (prepareVideoEncoder UNKNOWN_ERROR g1
                                    (videoCodec env)))))).
Proof.
  cbv zeta. unfold recordScreen.
  destruct (configureSignalsResult env); [|left; reflexivity].
  destruct (getDisplayInfoResult env); [|left; reflexivity].
  right.
  set (g1 := defaultSize D0 D180 g env).
  pose proof (video_formats_prepareVideoEncoder UNKNOWN_ERROR g1
                (videoCodec env)) as PV.
  destruct (prepareVideoEncoder UNKNOWN_ERROR g1 (videoCodec env))
    as [first err].
  cbn [fst snd] in *.
  destruct (fallback UNKNOWN_ERROR g1 env err) as [[g2 second] err2].
  cbn [fst snd] in *.
  destruct err2 as [|e2]; cbv beta iota zeta; cbn [fst snd].
  - unfold prepareVirtualDisplay.
    pose proof (video_formats_prepareAudioEncoder UNKNOWN_ERROR
                  (audioCodec env)) as PA.
    destruct (gRecordAudio g2);
      [destruct (prepareAudioEncoder UNKNOWN_ERROR (audioCodec env))
         as [audio [|ea]]; cbn [fst snd] in PA|];
      cbv beta iota zeta; cbn [fst snd];
      rewrite !video_formats_app, PV, ?PA;
      change (NewMediaMuxer :: ?l) with ([NewMediaMuxer] ++ l);
      rewrite !video_formats_app, video_formats_encoding;
      match goal with
      | |- context [if ?b then _ else _] => destruct b
      end; simpl; rewrite ?app_nil_r; reflexivity.
  - rewrite !video_formats_app, PV. reflexivity.
Qed.

(** X11.  A size given on the command line is never replaced: the video
    encoder is set up at most once, with the requested width and height, and
    if that fails no other size is tried. *)
Theorem requested_size_is_the_only_one_tried :
  forall fw UNKNOWN_ERROR D0 D180 g env,
    gSizeSpecified g = true ->
    gVideoWidth g <> 0 -> gVideoHeight g <> 0 ->
    let tried := video_formats
                   (fst (recordScreen fw UNKNOWN_ERROR D0 D180 g env)) in
    tried = [] \/
    tried = [(to_int32 (gVideoWidth g), to_int32 (gVideoHeight g))].
Proof.
  intros fw UE D0 D180 g env S W H. cbv zeta.
  destruct (video_formats_recordScreen fw UE D0 D180 g env) as [E|E];
    [left; exact E|right].
  rewrite E. clear E.
  assert (defaultSize D0 D180 g env = g) as ->.
  { unfold defaultSize. apply Z.eqb_neq in W, H. rewrite W, H. reflexivity. }
  unfold fallback. rewrite S.
  destruct (snd (prepareVideoEncoder UE g (videoCodec env))); reflexivity.
Qed.

(** X11 at a concrete input: 640x480 was asked for. *)
Lemma requested_size_tried_in_portrait_session :
  video_formats
    (fst (recordScreen android (-2147483648) 0 2
            (set_gSizeSpecified true
               (set_gVideoHeight 480 (set_gVideoWidth 640 initialGlobals)))
            portraitSession)) = [] \/
  video_formats
    (fst (recordScreen android (-2147483648) 0 2
            (set_gSizeSpecified true
               (set_gVideoHeight 480 (set_gVideoWidth 640 initialGlobals)))
            portraitSession)) = [(640, 480)].
Proof.
  refine (requested_size_is_the_only_one_tried android (-2147483648) 0 2
            (set_gSizeSpecified true
               (set_gVideoHeight 480 (set_gVideoWidth 640 initialGlobals)))
            portraitSession _ _ _); vm_compute; congruence.
Defined.

(** X12.  Without a size on the command line the first attempt is made with
    the size of the display, width and height exchanged when the device is
    rotated.  A second attempt is made only if the first one failed, and only
    with 1280x720, or 720x1280 when the display size is higher than wide; it
    is not made when the width or the height is already that of the
    fallback. *)
Theorem fallback_size_keeps_orientation :
  forall fw UNKNOWN_ERROR D0 D180 g env,
    gSizeSpecified g = false ->
    gVideoWidth g = 0 -> gVideoHeight g = 0 ->
    let rotated := isDeviceRotated D0 D180 (mainDpyOrientation env) in
    let w := if rotated then mainDpyH env else mainDpyW env in
    let h := if rotated then mainDpyW env else mainDpyH env in
    let first := (to_int32 w, to_int32 h) in
    let second := if w <? h then (720, 1280) else (1280, 720) in
    let tried := video_formats
                   (fst (recordScreen fw UNKNOWN_ERROR D0 D180 g env)) in
    tried = [] \/ tried = [first] \/
    (tried = [first; second] /\ w <> fst second /\ h <> snd second /\
     snd (prepareVideoEncoder UNKNOWN_ERROR (defaultSize D0 D180 g env)
            (videoCodec env)) <> NO_ERROR).
Proof.
  intros fw UE D0 D180 g env S W H. cbv zeta.
  destruct (video_formats_recordScreen fw UE D0 D180 g env) as [E|E];
    [left; exact E|right].
  rewrite E. clear E.
  set (w := if isDeviceRotated D0 D180 (mainDpyOrientation env)
            then mainDpyH env else mainDpyW env).
  set (h := if isDeviceRotated D0 D180 (mainDpyOrientation env)
            then mainDpyW env else mainDpyH env).
  assert (defaultSize D0 D180 g env
          = set_gVideoHeight h (set_gVideoWidth w g)) as D.
  { unfold defaultSize. rewrite W. change (0 =? 0) with true. cbv iota.
    cbn [gVideoHeight set_gVideoWidth]. rewrite H. reflexivity. }
  rewrite D. cbn [gVideoWidth gVideoHeight set_gVideoHeight set_gVideoWidth].
  set (g1 := set_gVideoHeight h (set_gVideoWidth w g)).
  unfold fallback.
  destruct (snd (prepareVideoEncoder UE g1 (videoCodec env))) as [|e] eqn:PV;
    [left; reflexivity|].
  assert (gVideoWidth g1 = w) as Gw by reflexivity.
  assert (gVideoHeight g1 = h) as Gh by reflexivity.
  assert (gSizeSpecified g1 = false) as Gs by exact S.
  rewrite Gs, !Gw, !Gh. cbn [negb]. cbv zeta.
  unfold kFallbackWidth, kFallbackHeight.
  destruct (w <? h) eqn:P.
  - destruct (negb (w =? 720) && negb (h =? 1280)) eqn:T;
      [|left; reflexivity].
    right. apply andb_true_iff in T. destruct T as [T1 T2].
    apply negb_true_iff in T1, T2. apply Z.eqb_neq in T1, T2.
    match goal with
    | |- context [prepareVideoEncoder ?u ?g' ?c] =>
        pose proof (video_formats_prepareVideoEncoder u g' c) as F;
        destruct (prepareVideoEncoder u g' c) as [l err']
    end.
    cbn [fst snd] in *. rewrite F.
    split; [reflexivity|]. split; [exact T1|]. split; [exact T2|discriminate].
  - destruct (negb (w =? 1280) && negb (h =? 720)) eqn:T;
      [|left; reflexivity].
    right. apply andb_true_iff in T. destruct T as [T1 T2].
    apply negb_true_iff in T1, T2. apply Z.eqb_neq in T1, T2.
    match goal with
    | |- context [prepareVideoEncoder ?u ?g' ?c] =>
        pose proof (video_formats_prepareVideoEncoder u g' c) as F;
        destruct (prepareVideoEncoder u g' c) as [l err']
    end.
    cbn [fst snd] in *. rewrite F.
    split; [reflexivity|]. split; [exact T1|]. split; [exact T2|discriminate].
Qed.

(** X12 at a concrete input: a 1080x1920 display whose size the encoder
    refuses. *)
Lemma portrait_display_falls_back_to_720x1280 :
  video_formats
    (fst (recordScreen android (-2147483648) 0 2 initialGlobals
            portraitSession)) = [(1080, 1920); (720, 1280)].
Proof.
  destruct (fallback_size_keeps_orientation android (-2147483648) 0 2
              initialGlobals portraitSession eq_refl eq_refl eq_refl)
    as [E|[E|[E _]]].
  - vm_compute in E. discriminate E.
  - vm_compute in E. discriminate E.
  - exact E.
Defined.

(** ** The signal handlers *)

Lemma interleaving_In runs l :
  Signals.interleaving runs l ->
  forall r st, In r runs -> In st r -> In st l.
Proof.
  induction 1 as [runs E|pre st0 r0 post l _ IH]; intros r st Hr Hst.
  - rewrite Forall_forall in E. rewrite (E r Hr) in Hst. contradiction.
  - apply in_app_or in Hr. destruct Hr as [Hr|[Hr|Hr]].
    + right. apply (IH r st); [|exact Hst]. apply in_or_app. left. exact Hr.
    + subst r. destruct Hst as [Hst|Hst]; [left; exact Hst|right].
      apply (IH r0 st); [|exact Hst]. apply in_or_app. right. left.
      reflexivity.
    + right. apply (IH r st); [|exact Hst].
      apply in_or_app. right. right. exact Hr.
Qed.

Lemma interleaving_from runs l :
  Signals.interleaving runs l ->
  forall st, In st l -> exists r, In r runs /\ In st r.
Proof.
  induction 1 as [runs E|pre st0 r0 post l _ IH]; intros st Hst.
  - contradiction.
  - destruct Hst as [Hst|Hst].
    + subst st0. exists (st :: r0). split; [|left; reflexivity].
      apply in_or_app. right. left. reflexivity.
    + destruct (IH st Hst) as (r & Hr & Hs).
      apply in_app_or in Hr. destruct Hr as [Hr|[Hr|Hr]].
      * exists r. split; [apply in_or_app; left; exact Hr|exact Hs].
      * subst r. exists (st0 :: r0). split; [|right; exact Hs].
        apply in_or_app. right. left. reflexivity.
      * exists r. split; [|exact Hs].
        apply in_or_app. right. right. exact Hr.
Qed.

(** Statements other than [abort()] leave the saved dispositions alone, and a
    disposition that was restored stays restored. *)
Lemma run_restores l :
  forall p,
    ~ In Signals.Abort l ->
    exists final,
      Signals.run l p = Some final /\
      Signals.gOrigSigactionINT final = Signals.gOrigSigactionINT p /\
      Signals.gOrigSigactionHUP final = Signals.gOrigSigactionHUP p /\
      (Signals.onSIGINT p = Signals.gOrigSigactionINT p \/
       In Signals.RestoreINT l ->
       Signals.onSIGINT final = Signals.gOrigSigactionINT p) /\
      (Signals.onSIGHUP p = Signals.gOrigSigactionHUP p \/
       In Signals.RestoreHUP l ->
       Signals.onSIGHUP final = Signals.gOrigSigactionHUP p).
Proof.
  induction l as [|st l IH]; intros p Hn.
  - exists p. cbn [Signals.run]. split; [reflexivity|].
    split; [reflexivity|]. split; [reflexivity|].
    split; intros [H|[]]; exact H.
  - assert (~ In Signals.Abort l) as Hl by (intros H; apply Hn; right; exact H).
    destruct st; try (exfalso; apply Hn; left; reflexivity);
      cbn [Signals.run Signals.execute];
      match goal with
      | |- context [Signals.run l ?q] =>
          destruct (IH q Hl) as (final & R & G1 & G2 & I & H)
      end;
      cbn [Signals.onSIGINT Signals.onSIGHUP Signals.gOrigSigactionINT
           Signals.gOrigSigactionHUP] in *;
      exists final;
      (split; [exact R|]); (split; [exact G1|]); (split; [exact G2|]);
      (split; intros [E|[E|E]]; try discriminate E; auto).
Qed.

(** X13.  After [configureSignals] has succeeded, let the handler run for
    SIGINT or SIGHUP one or more times, the runs overlapping in any way
    ([sa_mask] is empty, so SIGHUP can interrupt a run for SIGINT and the
    other way round).  When the runs have come to their ends, [abort()] has
    not been reached and SIGINT and SIGHUP have the dispositions they had
    before [configureSignals]. *)
Theorem overlapping_handler_runs_restore_dispositions :
  forall p sigs l,
    sigs <> [] ->
    Forall Signals.caught sigs ->
    Signals.interleaving (map Signals.signalCatcher sigs) l ->
    exists final,
      Signals.run l (fst (Signals.configureSignals NO_ERROR NO_ERROR p))
      = Some final /\
      Signals.onSIGINT final = Signals.onSIGINT p /\
      Signals.onSIGHUP final = Signals.onSIGHUP p.
Proof.
  intros p sigs l Hne Hc Hi.
  assert (forall sig, In sig sigs ->
            Signals.signalCatcher sig =
            [Signals.RaiseStop; Signals.RestoreINT; Signals.RestoreHUP])
    as Body.
  { intros sig Hs. rewrite Forall_forall in Hc.
    destruct (Hc sig Hs); subst sig; reflexivity. }
  assert (~ In Signals.Abort l) as Hn.
  { intros Ha. destruct (interleaving_from _ _ Hi _ Ha) as (r & Hr & Hs).
    apply in_map_iff in Hr. destruct Hr as (sig & <- & Hsig).
    rewrite (Body sig Hsig) in Hs.
    destruct Hs as [Hs|[Hs|[Hs|[]]]]; discriminate Hs. }
  destruct sigs as [|sig0 sigs]; [contradiction|].
  assert (forall st, In st [Signals.RaiseStop; Signals.RestoreINT;
                            Signals.RestoreHUP] -> In st l) as All.
  { intros st Hst.
    apply (interleaving_In _ _ Hi (Signals.signalCatcher sig0) st).
    - left. reflexivity.
    - rewrite (Body sig0) by (left; reflexivity). exact Hst. }
  destruct (run_restores l
              (fst (Signals.configureSignals NO_ERROR NO_ERROR p)) Hn)
    as (final & R & _ & _ & I & H).
  exists final. split; [exact R|]. split.
  - apply I. right. apply All. right. left. reflexivity.
  - apply H. right. apply All. right. right. left. reflexivity.
Qed.

(** X13 at a concrete input: SIGHUP interrupts the run of the handler for
    SIGINT before it has restored anything. *)
Lemma handlers_restored_after_hangup :
  exists final,
    Signals.run Signals.hangupDuringInterrupt
      (fst (Signals.configureSignals NO_ERROR NO_ERROR
              Signals.startedFromShell))
    = Some final /\
    Signals.onSIGINT final = Signals.onSIGINT Signals.startedFromShell /\
    Signals.onSIGHUP final = Signals.onSIGHUP Signals.startedFromShell.
Proof.
  refine (overlapping_handler_runs_restore_dispositions
            Signals.startedFromShell [Signals.SIGINT; Signals.SIGHUP]
            Signals.hangupDuringInterrupt _ _ _).
  - discriminate.
  - constructor; [left; reflexivity|].
    constructor; [right; reflexivity|constructor].
  - apply (Signals.interleaving_next
             [] Signals.RaiseStop
             [Signals.RestoreINT; Signals.RestoreHUP]
             [[Signals.RaiseStop; Signals.RestoreINT; Signals.RestoreHUP]]).
    apply (Signals.interleaving_next
             [[Signals.RestoreINT; Signals.RestoreHUP]] Signals.RaiseStop
             [Signals.RestoreINT; Signals.RestoreHUP] []).
    apply (Signals.interleaving_next
             [[Signals.RestoreINT; Signals.RestoreHUP]] Signals.RestoreINT
             [Signals.RestoreHUP] []).
    apply (Signals.interleaving_next
             [[Signals.RestoreINT; Signals.RestoreHUP]] Signals.RestoreHUP
             [] []).
    apply (Signals.interleaving_next
             [] Signals.RestoreINT [Signals.RestoreHUP] [[]]).
    apply (Signals.interleaving_next
             [] Signals.RestoreHUP [] [[]]).
    apply Signals.interleaving_done. repeat constructor.
Defined.
